(** * json-abc-converter: a shallow embedding of [main.go] and its properties

    The program reads a JSON array of tune records and writes them out as ABC
    notation, one file per tune or one combined file.  Go strings are byte
    sequences: they are modelled as [string] (a list of 8-bit [ascii]), so
    [String.length] is Go's [len] and every index below is a byte index.

    Layout: the parts of Go's standard library the program calls
    ([strings], [encoding/json], [fmt], [os]), then the program itself, then
    the reading of the specification, then the theorems. *)

From stdpp Require Import gmap strings list fin_maps pretty.
From Stdlib Require Import Ascii String ZArith Lia.

(** ** Byte strings and slicing *)

(** [s[:n]] and [s[n:]].  Go panics when [n > len(s)]; every use in the
    program is guarded by a length test, and the model saturates instead. *)
Fixpoint slice_to (s : string) (n : nat) : string :=
  match n, s with
  | S k, String c t => String c (slice_to t k)
  | _, _ => ""
  end.

Fixpoint slice_from (s : string) (n : nat) : string :=
  match n, s with
  | S k, String _ t => slice_from t k
  | _, _ => s
  end.

(** The bytes of a string, for statements about single bytes. *)
Abbreviation bytes := list_ascii_of_string.

(** ** Package [strings] *)

Module strings.

(** [len(s) >= len(prefix) && s[:len(prefix)] == prefix] *)
Definition HasPrefix (s prefix : string) : bool :=
  (String.length prefix <=? String.length s)
  && String.eqb (slice_to s (String.length prefix)) prefix.

(** [len(s) >= len(suffix) && s[len(s)-len(suffix):] == suffix] *)
Definition HasSuffix (s suffix : string) : bool :=
  (String.length suffix <=? String.length s)
  && String.eqb (slice_from s (String.length s - String.length suffix)) suffix.

Definition TrimSuffix (s suffix : string) : string :=
  if HasSuffix s suffix
  then slice_to s (String.length s - String.length suffix)
  else s.

(** The byte index of the first instance of [substr] in [s]; Go's [-1]
    is [None]. *)
Fixpoint Index (s substr : string) : option nat :=
  if HasPrefix s substr then Some 0
  else match s with
       | "" => None
       | String _ t => S <$> Index t substr
       end.

Definition Contains (s substr : string) : bool :=
  bool_decide (is_Some (Index s substr)).

(** [Count]'s loop for a non-empty [substr]: find the next instance, count
    it, continue behind it.  Every round consumes at least one byte, so
    [len(s)+1] rounds are enough ([Count_rounds_enough] below).  Go counts
    a one-byte pattern with a byte scan instead; the loop gives the same
    number ([Count_rounds_single] below). *)
Fixpoint Count_rounds (rounds : nat) (s substr : string) : nat :=
  match rounds with
  | 0 => 0
  | S r =>
      match Index s substr with
      | None => 0
      | Some i => S (Count_rounds r (slice_from s (i + String.length substr)) substr)
      end
  end.

(** The number of non-overlapping instances of [substr] in [s].  The
    program only counts non-empty literals; Go's rune count for the empty
    pattern is outside the model. *)
Definition Count (s substr : string) : nat :=
  Count_rounds (S (String.length s)) s substr.

(** [Replace]'s loop: [n] times, copy up to the next instance of [old],
    write [new], continue behind the instance. *)
Fixpoint Replace_loop (old new : string) (n : nat) (s : string) : string :=
  match n with
  | 0 => s
  | S k =>
      match Index s old with
      | None => s
      | Some j =>
          slice_to s j +:+ new
            +:+ Replace_loop old new k (slice_from s (j + String.length old))
      end
  end.

(** [Replace(s, old, new, n)] for a non-empty [old]: the first [n]
    non-overlapping instances replaced, all of them when [n < 0]. *)
Definition Replace (s old new : string) (n : Z) : string :=
  if String.eqb old new || (n =? 0)%Z then s
  else
    let m := Count s old in
    if m =? 0 then s
    else
      let n := if (n <? 0)%Z || (m <? Z.to_nat n) then m else Z.to_nat n in
      Replace_loop old new n s.

Definition ReplaceAll (s old new : string) : string := Replace s old new (-1).

(** *** [ToLower] *)

Definition isUpperByte (c : ascii) : bool :=
  (65 <=? nat_of_ascii c) && (nat_of_ascii c <=? 90).

(** [c < utf8.RuneSelf] *)
Definition isASCIIByte (c : ascii) : bool := nat_of_ascii c <? 128.

Fixpoint isASCII (s : string) : bool :=
  match s with
  | "" => true
  | String c t => isASCIIByte c && isASCII t
  end.

Fixpoint hasUpper (s : string) : bool :=
  match s with
  | "" => false
  | String c t => isUpperByte c || hasUpper t
  end.

(** [c += 'a' - 'A'] on the bytes ['A'..'Z']. *)
Definition lowerByte (c : ascii) : ascii :=
  if isUpperByte c then ascii_of_nat (nat_of_ascii c + 32) else c.

Fixpoint lowerASCII (s : string) : string :=
  match s with
  | "" => ""
  | String c t => String (lowerByte c) (lowerASCII t)
  end.

(** [ToLower] has a fast path for ASCII-only strings, modelled in full.
    Any other string goes through [Map(unicode.ToLower, s)], which depends
    on Go's Unicode case tables: that path is the parameter [unicodeLower]. *)
Definition ToLower (unicodeLower : string → string) (s : string) : string :=
  if isASCII s then
    if negb (hasUpper s) then s else lowerASCII s
  else unicodeLower s.

End strings.

(** ** The program: file names *)

(** The double quote, written by its code. *)
Definition dquote : string := String (ascii_of_nat 34) "".

Definition illegalChars : list string :=
  ["/"; "\"; ":"; "*"; "?"; dquote; "<"; ">"; "|"].

(** [for _, char := range illegalChars { result = ReplaceAll(result, char, "_") }],
    then the cut at 50 bytes. *)
Definition sanitizeFileName (name : string) : string :=
  let result := name in
  let result :=
    foldl (λ result char, strings.ReplaceAll result char "_") result illegalChars in
  let result :=
    if 50 <? String.length result then slice_to result 50 else result in
  result.

(** ** The data model *)

(** [type Tune struct]; the Go field [Type] is [Type_] here. *)
Record Tune := mkTune {
  TuneID : string;
  SettingID : string;
  Name : string;
  Type_ : string;
  Meter : string;
  Mode : string;
  ABC : string;
  Date : string;
  Username : string;
}.

(** The zero value of [Tune]. *)
Definition zeroTune : Tune := mkTune "" "" "" "" "" "" "" "" "".

(** The fields of [Tune] with their [json:] tags, in declaration order. *)
Inductive TuneField :=
  FTuneID | FSettingID | FName | FType | FMeter | FMode | FABC | FDate | FUsername.

Global Instance TuneField_eq_dec : EqDecision TuneField.
Proof. solve_decision. Defined.

Definition allFields : list TuneField :=
  [FTuneID; FSettingID; FName; FType; FMeter; FMode; FABC; FDate; FUsername].

Definition tag (f : TuneField) : string :=
  match f with
  | FTuneID => "tune_id"
  | FSettingID => "setting_id"
  | FName => "name"
  | FType => "type"
  | FMeter => "meter"
  | FMode => "mode"
  | FABC => "abc"
  | FDate => "date"
  | FUsername => "username"
  end.

Definition getField (f : TuneField) (t : Tune) : string :=
  match f with
  | FTuneID => TuneID t
  | FSettingID => SettingID t
  | FName => Name t
  | FType => Type_ t
  | FMeter => Meter t
  | FMode => Mode t
  | FABC => ABC t
  | FDate => Date t
  | FUsername => Username t
  end.

Definition setField (f : TuneField) (s : string) (t : Tune) : Tune :=
  match t with
  | mkTune tid sid nm ty mt md abc dt un =>
      match f with
      | FTuneID => mkTune s sid nm ty mt md abc dt un
      | FSettingID => mkTune tid s nm ty mt md abc dt un
      | FName => mkTune tid sid s ty mt md abc dt un
      | FType => mkTune tid sid nm s mt md abc dt un
      | FMeter => mkTune tid sid nm ty s md abc dt un
      | FMode => mkTune tid sid nm ty mt s abc dt un
      | FABC => mkTune tid sid nm ty mt md s dt un
      | FDate => mkTune tid sid nm ty mt md abc s un
      | FUsername => mkTune tid sid nm ty mt md abc dt s
      end
  end.

(** ** Package [encoding/json], as [Unmarshal] acts on a [*[]Tune]

    [Unmarshal] first scans the whole input for syntax ([checkValid]) and only
    then stores values.  The scan is the parameter [scan]: the JSON value the
    text denotes, or [None] for text that is not one valid JSON value.  The
    storing follows the documented rules: an array fills the slice; an object
    fills a struct, each key choosing a field by its tag (exactly, or else by
    the case-insensitive match [folded]) and unknown keys skipped; a JSON
    string fills a string field; [null] leaves its target as it is; any other
    combination records an [UnmarshalTypeError], the first of which is
    returned once the whole value has been walked. *)

Module json.

#[warnings="-register-all"]
Inductive Value :=
| Null
| Bool (b : bool)
| Number (literal : string)
| Str (s : string)
| Array (elems : list Value)
| Object (members : list (string * Value)).

Inductive Error :=
| SyntaxError
| UnmarshalTypeError (value : string).

(** The [Value] field of an [UnmarshalTypeError]. *)
Definition describe (v : Value) : string :=
  match v with
  | Null => "null"
  | Bool _ => "bool"
  | Number _ => "number"
  | Str _ => "string"
  | Array _ => "array"
  | Object _ => "object"
  end.

(** [d.saveError]: the first error is kept. *)
Definition saveError (saved : option Error) (e : Error) : option Error :=
  match saved with
  | Some _ => saved
  | None => Some e
  end.

Section Decode.
Variable scan : string → option Value.
Variable folded : string → option TuneField.

Definition byExactName (key : string) : option TuneField :=
  List.find (λ f, bool_decide (tag f = key)) allFields.

Definition fieldFor (key : string) : option TuneField :=
  match byExactName key with
  | Some f => Some f
  | None => folded key
  end.

(** A value stored into a field of type [string]. *)
Definition storeString (f : TuneField) (v : Value) (st : Tune * option Error)
  : Tune * option Error :=
  match v with
  | Str s => (setField f s st.1, st.2)
  | Null => st
  | _ => (st.1, saveError st.2 (UnmarshalTypeError (describe v)))
  end.

Definition storeMember (st : Tune * option Error) (kv : string * Value)
  : Tune * option Error :=
  match fieldFor kv.1 with
  | Some f => storeString f kv.2 st
  | None => st
  end.

(** A value stored into a fresh element of type [Tune]. *)
Definition storeTune (v : Value) (saved : option Error) : Tune * option Error :=
  match v with
  | Object members => foldl storeMember (zeroTune, saved) members
  | Null => (zeroTune, saved)
  | _ => (zeroTune, saveError saved (UnmarshalTypeError (describe v)))
  end.

Fixpoint storeElems (elems : list Value) (saved : option Error)
  : list Tune * option Error :=
  match elems with
  | [] => ([], saved)
  | v :: rest =>
      let '(t, saved) := storeTune v saved in
      let '(ts, saved) := storeElems rest saved in
      (t :: ts, saved)
  end.

(** A value stored into the nil slice [var tunes []Tune]. *)
Definition store (v : Value) : list Tune * option Error :=
  match v with
  | Array elems => storeElems elems None
  | Null => ([], None)
  | _ => ([], Some (UnmarshalTypeError (describe v)))
  end.

Definition Unmarshal (data : string) : list Tune * option Error :=
  match scan data with
  | None => ([], Some SyntaxError)
  | Some v => store v
  end.
End Decode.

End json.

(** ** The world the program runs in *)

(** A line feed, written by its code. *)
Definition nl : string := String (ascii_of_nat 10) "".

(** What the program prints on standard output: one constructor per
    [fmt.Printf]/[fmt.Println] call of [main.go], with the values of its
    arguments, in the order of the source. *)
Inductive Message :=
| PleaseProvideInput                                  (* line 34 *)
| ErrorReadingFile (path : string)                    (* line 42 *)
| ErrorParsingJSON (err : json.Error)                 (* line 50 *)
| FoundTunes (n : nat)                                (* line 54 *)
| ErrorCreatingDirectory (err : string)               (* line 60 *)
| CreatedDirectory (dir : string)                     (* line 63 *)
| ErrorCreatingFile (err : string)                    (* line 79 *)
| WroteToFile (n : nat) (path : string)               (* line 103 *)
| ErrorCreatingFileAt (path : string) (err : string)  (* line 118 *)
| Processed (n : nat)                                 (* line 143 *)
| WroteToFiles (n : nat) (dir : string).              (* line 147 *)

(** Regular files by path with their contents, the directories, and what
    has been printed so far. *)
Record World := mkWorld {
  files : gmap string string;
  dirs : gset string;
  stdout : list Message;
}.

Definition Print (m : Message) (w : World) : World :=
  mkWorld (files w) (dirs w) (stdout w ++ [m]).

(** [os.Create] when it succeeds: the file exists and is empty. *)
Definition os_Create (path : string) (w : World) : World :=
  mkWorld (<[path := ""]> (files w)) (dirs w) (stdout w).

(** Writing text to the open file [f].  The program drops the results of
    its writes; a write is taken to succeed. *)
Definition Fprint (f : string) (text : string) (w : World) : World :=
  mkWorld (alter (λ content, content +:+ text) f (files w)) (dirs w) (stdout w).

(** [os.Stat] finds the path ([os.IsNotExist(err)] is false, line 57), be
    it a directory or a regular file.  An error of [os.Stat] other than
    "does not exist" also makes the program skip [os.MkdirAll]; the world
    has no such paths. *)
Definition os_exists (path : string) (w : World) : bool :=
  bool_decide (path ∈ dirs w ∨ path ∈ dom (files w)).

(** [os.MkdirAll] when it succeeds, as far as the program can tell the
    difference: [path] is a directory afterwards.  The missing parents it
    makes on the way are not recorded in [dirs], which holds the
    directories the program names. *)
Definition os_MkdirAll (path : string) (w : World) : World :=
  mkWorld (files w) ({[path]} ∪ dirs w) (stdout w).

(** How [main] ends: [os.Exit(code)], or by returning (status 0). *)
Inductive Outcome := Exit (code : Z) | Returned.

(** The command line. *)
Record Flags := mkFlags {
  inputFile : string;
  outputDir : string;
  singleFile : bool;
  singleFilePath : string;
}.

(** What the program takes from its libraries and its surroundings:
    - [unicodeLower]: Go's lowercasing of strings that are not pure ASCII;
    - [json_scan], [json_folded]: the JSON scanner and the case-insensitive
      match of a key to a field, see [json];
    - [filepath_Join]: [filepath.Join];
    - [os_Create_error n path]: the error, if any, of the [n]-th call of
      [os.Create] of this run (counted from 0), made on [path];
    - [os_MkdirAll_error path]: the error, if any, of [os.MkdirAll]. *)
Class Environment := {
  unicodeLower : string → string;
  json_scan : string → option json.Value;
  json_folded : string → option TuneField;
  filepath_Join : string → string → string;
  os_Create_error : nat → string → option string;
  os_MkdirAll_error : string → option string;
}.

(** ** The program: [main.go] *)

Section Program.
Context `{env : Environment}.

Definition modeToBetter (mode : string) : string :=
  let mode := strings.ToLower unicodeLower mode in
  if strings.HasSuffix mode "major" then
    strings.TrimSuffix mode "major"
  else if strings.HasSuffix mode "minor" then
    strings.TrimSuffix mode "minor" +:+ "m"
  else if strings.Contains mode "mixolydian" then
    strings.Replace mode "mixolydian" " mix" 1
  else if strings.Contains mode "dorian" then
    strings.Replace mode "dorian" " dor" 1
  else if strings.Contains mode "phrygian" then
    strings.Replace mode "phrygian" " phr" 1
  else if strings.Contains mode "lydian" then
    strings.Replace mode "lydian" " lyd" 1
  else if strings.Contains mode "locrian" then
    strings.Replace mode "locrian" " loc" 1
  else mode.

(** The body of the loop of [outputToSingleFile] (lines 85-100), writing
    to the open file [f]. *)
Definition outputToSingleFile_body (f : string) (w : World) (tune : Tune) : World :=
  let w := Fprint f ("X:" +:+ SettingID tune +:+ nl) w in
  let w := Fprint f ("T:" +:+ Name tune +:+ nl) w in
  let w := Fprint f ("R:" +:+ Type_ tune +:+ nl) w in
  let w := Fprint f ("M:" +:+ Meter tune +:+ nl) w in
  let w := Fprint f ("K:" +:+ modeToBetter (Mode tune) +:+ nl) w in
  let w :=
    if bool_decide (Username tune ≠ "")
    then Fprint f ("Z:" +:+ Username tune +:+ nl) w else w in
  let w :=
    if bool_decide (Date tune ≠ "")
    then Fprint f ("H:Added " +:+ Date tune +:+ nl) w else w in
  let w := Fprint f (ABC tune +:+ nl) w in
  let w := Fprint f ("" +:+ nl) w in
  w.

Definition outputToSingleFile (tunes : list Tune) (outputDir fileName : string)
    (w : World) : Outcome * World :=
  let outputPath := filepath_Join outputDir fileName in
  match os_Create_error 0 outputPath with
  | Some err => (Exit 1, Print (ErrorCreatingFile err) w)
  | None =>
      let f := outputPath in
      let w := os_Create outputPath w in
      let w := foldl (outputToSingleFile_body f) w tunes in
      (Returned, Print (WroteToFile (List.length tunes) outputPath) w)
  end.

(** The body of the loop of [outputToMultipleFiles] (lines 110-144) for
    the tune at index [i]; the state is the counter [processed] and the
    world. *)
Definition outputToMultipleFiles_body (outputDir : string) (i : nat) (tune : Tune)
    (st : nat * World) : nat * World :=
  let '(processed, w) := st in
  let safeName := sanitizeFileName (Name tune) in
  let fileName := SettingID tune +:+ "_" +:+ safeName +:+ ".abc" in
  let outputPath := filepath_Join outputDir fileName in
  match os_Create_error i outputPath with
  | Some err => (processed, Print (ErrorCreatingFileAt outputPath err) w)
  | None =>
      let f := outputPath in
      let w := os_Create outputPath w in
      let w := Fprint f ("X:" +:+ SettingID tune +:+ nl) w in
      let w := Fprint f ("T:" +:+ Name tune +:+ nl) w in
      let w := Fprint f ("R:" +:+ Type_ tune +:+ nl) w in
      let w := Fprint f ("M:" +:+ Meter tune +:+ nl) w in
      let w := Fprint f ("K:" +:+ modeToBetter (Mode tune) +:+ nl) w in
      let w :=
        if bool_decide (Username tune ≠ "")
        then Fprint f ("Z:" +:+ Username tune +:+ nl) w else w in
      let w :=
        if bool_decide (Date tune ≠ "")
        then Fprint f ("H:Added " +:+ Date tune +:+ nl) w else w in
      let w := Fprint f (ABC tune +:+ nl) w in
      let processed := S processed in
      let w := if (i + 1) mod 100 =? 0 then Print (Processed (i + 1)) w else w in
      (processed, w)
  end.

(** [for i, tune := range tunes], from index [i] on. *)
Fixpoint outputToMultipleFiles_loop (outputDir : string) (i : nat)
    (tunes : list Tune) (st : nat * World) : nat * World :=
  match tunes with
  | [] => st
  | tune :: rest =>
      outputToMultipleFiles_loop outputDir (S i) rest
        (outputToMultipleFiles_body outputDir i tune st)
  end.

Definition outputToMultipleFiles (tunes : list Tune) (outputDir : string)
    (w : World) : World :=
  let processed := 0 in
  let '(processed, w) :=
    outputToMultipleFiles_loop outputDir 0 tunes (processed, w) in
  Print (WroteToFiles processed outputDir) w.

(** The body of [main] after [flag.Parse] has returned (lines 33-72), from
    the parsed flags; [program] below adds the ways [flag.Parse] itself
    ends the run.  [flag.PrintDefaults] writes to
    standard error, which is not recorded.  [ioutil.ReadFile] fails when
    the path names no regular file; the message then carries the path in
    place of the text of the error. *)
Definition main (flags : Flags) (w : World) : Outcome * World :=
  if bool_decide (inputFile flags = "") then
    (Exit 1, Print PleaseProvideInput w)
  else
    match files w !! inputFile flags with
    | None => (Exit 1, Print (ErrorReadingFile (inputFile flags)) w)
    | Some data =>
        match json.Unmarshal json_scan json_folded data with
        | (_, Some err) => (Exit 1, Print (ErrorParsingJSON err) w)
        | (tunes, None) =>
            let w := Print (FoundTunes (List.length tunes)) w in
            let made :=
              if os_exists (outputDir flags) w then inr w
              else
                match os_MkdirAll_error (outputDir flags) with
                | Some err => inl (Print (ErrorCreatingDirectory err) w)
                | None =>
                    inr (Print (CreatedDirectory (outputDir flags))
                           (os_MkdirAll (outputDir flags) w))
                end in
            match made with
            | inl w => (Exit 1, w)
            | inr w =>
                if singleFile flags then
                  outputToSingleFile tunes (outputDir flags) (singleFilePath flags) w
                else
                  (Returned, outputToMultipleFiles tunes (outputDir flags) w)
            end
        end
    end.
End Program.

(** ** The specification's reading

    What the specification says in its own words, to be compared with the
    program. *)

Module Spec.

(** "[s] ends with [suffix]" and "[s] contains [sub]". *)
Definition endsWith (s suffix : string) : Prop := ∃ p, s = p +:+ suffix.
Definition containsStr (s sub : string) : Prop := ∃ a b, s = a +:+ sub +:+ b.

(** *** 4.2 Mode Normalizer: an ordered list of rules, the first match wins *)

(** [s] without its ending [suffix], if it ends with it. *)
Fixpoint stripSuffix (suffix s : string) : option string :=
  if String.eqb s suffix then Some ""
  else match s with
       | "" => None
       | String c t => String c <$> stripSuffix suffix t
       end.

Fixpoint stripPrefix (prefix s : string) : option string :=
  match prefix, s with
  | "", _ => Some s
  | String a p, String b t => if Ascii.eqb a b then stripPrefix p t else None
  | String _ _, "" => None
  end.

(** [s] with its first occurrence of [old] replaced by [new], if there
    is one. *)
Fixpoint replaceFirst (old new s : string) : option string :=
  match stripPrefix old s with
  | Some rest => Some (new +:+ rest)
  | None =>
      match s with
      | "" => None
      | String c t => String c <$> replaceFirst old new t
      end
  end.

(** A rule: the result when it matches. *)
Definition Rule := string → option string.

Definition rules : list Rule :=
  [ stripSuffix "major";
    λ s, (λ r, r +:+ "m") <$> stripSuffix "minor" s;
    replaceFirst "mixolydian" " mix";
    replaceFirst "dorian" " dor";
    replaceFirst "phrygian" " phr";
    replaceFirst "lydian" " lyd";
    replaceFirst "locrian" " loc" ].

Fixpoint firstMatch (rs : list Rule) (s : string) : string :=
  match rs with
  | [] => s
  | r :: rs => match r s with Some out => out | None => firstMatch rs s end
  end.

Definition modeNormalize (lowercase : string → string) (mode : string) : string :=
  firstMatch rules (lowercase mode).

(** The mode names of rules 4 to 8. *)
Definition modeNames : list string :=
  ["mixolydian"; "dorian"; "phrygian"; "lydian"; "locrian"].

(** *** 4.4 ABC Renderer: the lines of one tune *)

Definition header (key : string → string) (t : Tune) : list string :=
  [ "X:" +:+ SettingID t;
    "T:" +:+ Name t;
    "R:" +:+ Type_ t;
    "M:" +:+ Meter t;
    "K:" +:+ key (Mode t) ]
  ++ (if bool_decide (Username t = "") then [] else ["Z:" +:+ Username t])
  ++ (if bool_decide (Date t = "") then [] else ["H:Added " +:+ Date t]).

Definition render (key : string → string) (t : Tune) : list string :=
  header key t ++ [ABC t].

(** Lines as text: each line ended by a line feed. *)
Fixpoint unlines (ls : list string) : string :=
  match ls with
  | [] => ""
  | l :: ls => l +:+ nl +:+ unlines ls
  end.

Definition block (key : string → string) (t : Tune) : string :=
  unlines (render key t).

(** *** 4.5 Output Writer *)

(** Single-file mode: every block followed by one blank line. *)
Fixpoint combined (key : string → string) (tunes : list Tune) : string :=
  match tunes with
  | [] => ""
  | t :: ts => block key t +:+ nl +:+ combined key ts
  end.

(** Multi-file mode: [<setting_id>_<sanitized name>.abc]. *)
Definition fileName (t : Tune) : string :=
  SettingID t +:+ "_" +:+ sanitizeFileName (Name t) +:+ ".abc".

(** *** 4.3 Filename Sanitizer: characters and storage units *)

(** The nine characters, as bytes. *)
Definition illegalBytes : list ascii :=
  ["/"; "\"; ":"; "*"; "?"; ascii_of_nat 34; "<"; ">"; "|"]%char.

(** Every byte [a] of [s] replaced by [b]. *)
Fixpoint replaceByte (a b : ascii) (s : string) : string :=
  match s with
  | "" => ""
  | String c t => String (if Ascii.eqb c a then b else c) (replaceByte a b t)
  end.

Fixpoint occurrences (a : ascii) (s : string) : nat :=
  match s with
  | "" => 0
  | String c t => (if Ascii.eqb c a then 1 else 0) + occurrences a t
  end.

Definition replaceIllegalByte (c : ascii) : ascii :=
  if bool_decide (c ∈ illegalBytes) then "_"%char else c.

Fixpoint replaceIllegal (s : string) : string :=
  match s with
  | "" => ""
  | String c t => String (replaceIllegalByte c) (replaceIllegal t)
  end.

(** A continuation byte of a multi-byte UTF-8 sequence: [10xxxxxx]. *)
Definition isContinuation (c : ascii) : bool :=
  (128 <=? nat_of_ascii c) && (nat_of_ascii c <? 192).

(** The characters of UTF-8 text: the bytes that start a sequence. *)
Fixpoint characters (s : string) : nat :=
  match s with
  | "" => 0
  | String c t => (if isContinuation c then 0 else 1) + characters t
  end.

(** A cut of [s] at byte [n] lands inside a multi-byte sequence when the
    byte at [n] is a continuation byte. *)
Definition cutsInsideSequence (s : string) (n : nat) : Prop :=
  match slice_from s n with
  | String c _ => isContinuation c = true
  | "" => False
  end.

(** *** 4.1 Record Decoder: the expected shape *)

(** "A well-formed array of objects matching the expected field shape":
    an array whose elements are objects in which every key of a field
    carries a string. *)
Definition wellShapedObject (fieldFor : string → option TuneField)
    (v : json.Value) : Prop :=
  ∃ members, v = json.Object members ∧
    ∀ k x, (k, x) ∈ members → is_Some (fieldFor k) → ∃ s, x = json.Str s.

Definition wellShaped (fieldFor : string → option TuneField)
    (doc : option json.Value) : Prop :=
  ∃ elems, doc = Some (json.Array elems) ∧
    ∀ v, v ∈ elems → wellShapedObject fieldFor v.

(** What the decoder takes without an error: [null] in any place, a
    string for a field, an object for a tune, an array for the whole. *)
Definition fitsString (v : json.Value) : Prop :=
  match v with
  | json.Str _ | json.Null => True
  | _ => False
  end.

Definition fitsTune (fieldFor : string → option TuneField) (v : json.Value) : Prop :=
  match v with
  | json.Null => True
  | json.Object members =>
      ∀ k x, (k, x) ∈ members → is_Some (fieldFor k) → fitsString x
  | _ => False
  end.

Definition fitsTunes (fieldFor : string → option TuneField) (v : json.Value) : Prop :=
  match v with
  | json.Null => True
  | json.Array elems => ∀ e, e ∈ elems → fitsTune fieldFor e
  | _ => False
  end.

Definition accepted (fieldFor : string → option TuneField)
    (doc : option json.Value) : Prop :=
  ∃ v, doc = Some v ∧ fitsTunes fieldFor v.

End Spec.

(** An environment for closed examples: every string they lowercase is
    ASCII, every key they decode is an exact tag, the only JSON text is
    [null], paths are joined with a slash, and no system call fails. *)
Definition exampleEnv : Environment := {|
  unicodeLower := λ s, s;
  json_scan := λ data, if String.eqb data "null" then Some json.Null else None;
  json_folded := λ _, None;
  filepath_Join := λ dir file, dir +:+ "/" +:+ file;
  os_Create_error := λ _ _, None;
  os_MkdirAll_error := λ _, None;
|}.

(** The world of the decoding examples: one input file, no directory. *)
Definition worldWith (data : string) : World :=
  mkWorld {[ "tunes.json" := data ]} ∅ [].

(** The world in which the file at [path] holds [content]. *)
Definition withFile (path content : string) (w : World) : World :=
  mkWorld (<[path := content]> (files w)) (dirs w) (stdout w).

Section Created.
Context `{env : Environment}.

(** The path of the file of a tune in multi-file mode. *)
Definition pathOf (dir : string) (t : Tune) : string :=
  filepath_Join dir (Spec.fileName t).

(** The paths at which multi-file mode creates a file, for the tunes
    from index [i] on: those of the tunes whose [os.Create] succeeds. *)
Fixpoint createdPaths (dir : string) (i : nat) (tunes : list Tune) : list string :=
  match tunes with
  | [] => []
  | t :: rest =>
      match os_Create_error i (pathOf dir t) with
      | None => pathOf dir t :: createdPaths dir (S i) rest
      | Some _ => createdPaths dir (S i) rest
      end
  end.
End Created.

(** Text for the examples: [n] copies of [s], and the two bytes [C3 A9] of
    the UTF-8 letter e with acute accent. *)
Fixpoint repeatStr (n : nat) (s : string) : string :=
  match n with
  | 0 => ""
  | S k => s +:+ repeatStr k s
  end.

(** The two tunes of the single-file example, with the fields the
    specification leaves open filled in. *)
Definition tuneA : Tune :=
  mkTune "10" "1" "A" "reel" "4/4" "Gmajor" "|:GABc:|" "" "".
Definition tuneB : Tune :=
  mkTune "20" "2" "B" "jig" "6/8" "Adorian" "|:ABcd:|" "2020-01-01" "bob".

Definition eAcute : string := String (ascii_of_nat 195) (String (ascii_of_nat 169) "").

(** ** Claims in the wording of the specification, where the program differs *)

(** C2 as stated: the sanitized title has two underscores after "Tune". *)
Definition C2_as_stated : Prop :=
  sanitizeFileName "Tune: The/Best?" = "Tune__The_Best_".

(** C3 as stated: a title of more than 50 characters comes out with exactly
    50 characters, or with fewer only when the cut lands inside a multi-byte
    sequence. *)
Definition C3_as_stated : Prop :=
  ∀ name, 50 < Spec.characters name →
    Spec.characters (sanitizeFileName name) = 50
    ∨ (Spec.characters (sanitizeFileName name) < 50
       ∧ Spec.cutsInsideSequence (Spec.replaceIllegal name) 50).

(** C7 as stated: input that is not a well-formed array of objects of the
    expected shape makes the run exit with a non-zero status and leaves the
    files as they were. *)
Definition C7_as_stated : Prop :=
  ∀ (env : Environment) flags w data,
    inputFile flags ≠ "" →
    files w !! inputFile flags = Some data →
    ¬ Spec.wellShaped (json.fieldFor json_folded) (json_scan data) →
    (∃ code, (main flags w).1 = Exit code ∧ code ≠ 0%Z)
    ∧ files (main flags w).2 = files w.

(** ** Vocabulary for further properties of the code *)

(** Every byte of [s] passes the test [p]. *)
Fixpoint allBytes (p : ascii → bool) (s : string) : bool :=
  match s with
  | "" => true
  | String c t => p c && allBytes p t
  end.

(** Lowercase ASCII text: every byte is below 128 and none is in ['A'..'Z']. *)
Definition isLowerASCIIByte (c : ascii) : bool :=
  strings.isASCIIByte c && negb (strings.isUpperByte c).

(** The messages of failed file creations in multi-file mode. *)
Definition isCreateError (m : Message) : bool :=
  match m with
  | ErrorCreatingFileAt _ _ => true
  | _ => false
  end.

Fixpoint createErrors (msgs : list Message) : nat :=
  match msgs with
  | [] => 0
  | m :: rest => (if isCreateError m then 1 else 0) + createErrors rest
  end.

(** The content of the file at [path], empty when there is none. *)
Definition contentAt (path : string) (w : World) : string :=
  default "" (files w !! path).

(** The members of the JSON object that spells out a tune under the tags
    of [Tune]: the seven plain fields, then [date] and [username] unless
    they are empty (their tags say [omitempty]). *)
Definition membersOf (t : Tune) : list (string * json.Value) :=
  [ ("tune_id", json.Str (TuneID t));
    ("setting_id", json.Str (SettingID t));
    ("name", json.Str (Name t));
    ("type", json.Str (Type_ t));
    ("meter", json.Str (Meter t));
    ("mode", json.Str (Mode t));
    ("abc", json.Str (ABC t)) ]
  ++ (if bool_decide (Date t = "") then [] else [("date", json.Str (Date t))])
  ++ (if bool_decide (Username t = "") then []
      else [("username", json.Str (Username t))]).

(** An input for closed examples: the text of a one-element array, the
    value it denotes, and an environment whose scanner reads it.  The text
    is [[{"setting_id":"1","name":"A"}]]. *)
Definition sampleText : string :=
  "[{" +:+ dquote +:+ "setting_id" +:+ dquote +:+ ":" +:+ dquote +:+ "1" +:+ dquote
  +:+ "," +:+ dquote +:+ "name" +:+ dquote +:+ ":" +:+ dquote +:+ "A" +:+ dquote
  +:+ "}]".

Definition sampleValue : json.Value :=
  json.Array [json.Object [("setting_id", json.Str "1"); ("name", json.Str "A")]].

Definition sampleTune : Tune := mkTune "" "1" "A" "" "" "" "" "" "".

Definition sampleEnv : Environment := {|
  unicodeLower := λ s, s;
  json_scan := λ data, if String.eqb data sampleText then Some sampleValue else None;
  json_folded := λ _, None;
  filepath_Join := λ dir file, dir +:+ "/" +:+ file;
  os_Create_error := λ _ _, None;
  os_MkdirAll_error := λ _, None;
|}.

(** The sample input in surroundings where no file can be created. *)
Definition failingEnv : Environment := {|
  unicodeLower := λ s, s;
  json_scan := λ data, if String.eqb data sampleText then Some sampleValue else None;
  json_folded := λ _, None;
  filepath_Join := λ dir file, dir +:+ "/" +:+ file;
  os_Create_error := λ _ _, Some "permission denied";
  os_MkdirAll_error := λ _, None;
|}.

(** A second setting of the tune of [tuneA] under the same setting_id and
    name, so that both have the same file name. *)
Definition tuneA2 : Tune :=
  mkTune "11" "1" "A" "jig" "6/8" "Edorian" "|:EFGA:|" "" "".

(** What [flag.Parse] (line 31) leaves of the command line: the values of
    the four flags, or the end of the process, which the [flag] package
    brings about itself, with status 0 after [-h] and with status 2 after
    a flag it cannot parse. *)
Inductive CommandLine :=
| Parsed (flags : Flags)
| HelpRequested
| BadFlag.

(** The whole of [func main]: [flag.Parse], then the body modelled by
    [main].  What [flag.Parse] prints goes to standard error, which is not
    recorded. *)
Definition program `{env : Environment} (cl : CommandLine) (w : World)
    : Outcome * World :=
  match cl with
  | Parsed flags => main flags w
  | HelpRequested => (Exit 0, w)
  | BadFlag => (Exit 2, w)
  end.

(** * Properties *)

(** ** Byte strings *)

Lemma str_app_nil_l s : "" +:+ s = s.
Proof. reflexivity. Qed.

Lemma str_app_cons c s t : String c s +:+ t = String c (s +:+ t).
Proof. reflexivity. Qed.

Lemma str_app_nil_r s : s +:+ "" = s.
Proof. induction s as [|c s IH]; [done|]. by rewrite str_app_cons, IH. Qed.

Lemma str_app_assoc s t u : (s +:+ t) +:+ u = s +:+ (t +:+ u).
Proof. induction s as [|c s IH]; [done|]. by rewrite !str_app_cons, IH. Qed.

Lemma str_length_app s t :
  String.length (s +:+ t) = String.length s + String.length t.
Proof. induction s as [|c s IH]; [done|]. rewrite str_app_cons. simpl. lia. Qed.

Lemma slice_to_0 s : slice_to s 0 = "".
Proof. by destruct s. Qed.

Lemma slice_from_0 s : slice_from s 0 = s.
Proof. by destruct s. Qed.

Lemma slice_to_from s n : slice_to s n +:+ slice_from s n = s.
Proof.
  revert s; induction n as [|n IH]; intros [|c s]; try done.
  simpl. by rewrite str_app_cons, IH.
Qed.

Lemma slice_to_length s n : String.length (slice_to s n) = n `min` String.length s.
Proof.
  revert s; induction n as [|n IH]; intros [|c s]; simpl; try done.
  by rewrite IH.
Qed.

Lemma slice_from_length s n :
  String.length (slice_from s n) = String.length s - n.
Proof. revert s; induction n as [|n IH]; intros [|c s]; simpl; auto. Qed.

Lemma slice_to_all s n : String.length s ≤ n → slice_to s n = s.
Proof.
  revert s; induction n as [|n IH]; intros [|c s]; simpl; try done; [lia|].
  intros. f_equal. apply IH. lia.
Qed.

Lemma slice_to_app a b : slice_to (a +:+ b) (String.length a) = a.
Proof. induction a as [|c a IH]; [apply slice_to_0|]. simpl. by rewrite IH. Qed.

Lemma slice_from_app a b : slice_from (a +:+ b) (String.length a) = b.
Proof. induction a as [|c a IH]; [apply slice_from_0|]. done. Qed.

Lemma slice_from_app_add a b n :
  slice_from (a +:+ b) (String.length a + n) = slice_from b n.
Proof. induction a as [|c a IH]; [done|]. done. Qed.

Lemma slice_from_from s n m : slice_from (slice_from s n) m = slice_from s (n + m).
Proof.
  revert s; induction n as [|n IH]; intros s.
  - by rewrite slice_from_0.
  - destruct s as [|c s]; simpl; [by destruct m|]. apply IH.
Qed.

(** ** Package [strings]: what the functions mean *)

Lemma HasPrefix_iff s p : strings.HasPrefix s p = true ↔ ∃ r, s = p +:+ r.
Proof.
  unfold strings.HasPrefix. rewrite andb_true_iff, Nat.leb_le, String.eqb_eq. split.
  - intros [_ H]. exists (slice_from s (String.length p)).
    rewrite <- H at 1. by rewrite slice_to_from.
  - intros [r ->]. rewrite str_length_app, slice_to_app. split; [lia|done].
Qed.

Lemma HasPrefix_slice s p :
  strings.HasPrefix s p = true → s = p +:+ slice_from s (String.length p).
Proof.
  intros [r ->]%HasPrefix_iff. by rewrite slice_from_app.
Qed.

Lemma HasSuffix_iff s suffix :
  strings.HasSuffix s suffix = true ↔ Spec.endsWith s suffix.
Proof.
  unfold strings.HasSuffix, Spec.endsWith.
  rewrite andb_true_iff, Nat.leb_le, String.eqb_eq. split.
  - intros [_ H]. exists (slice_to s (String.length s - String.length suffix)).
    rewrite <- H at 2. by rewrite slice_to_from.
  - intros [r ->]. rewrite str_length_app.
    replace (String.length r + String.length suffix - String.length suffix)
      with (String.length r) by lia.
    rewrite slice_from_app. split; [lia|done].
Qed.

Lemma TrimSuffix_app r suffix : strings.TrimSuffix (r +:+ suffix) suffix = r.
Proof.
  unfold strings.TrimSuffix.
  assert (strings.HasSuffix (r +:+ suffix) suffix = true) as ->
    by (apply HasSuffix_iff; by exists r).
  rewrite str_length_app.
  replace (String.length r + String.length suffix - String.length suffix)
    with (String.length r) by lia.
  apply slice_to_app.
Qed.

Lemma Index_unfold s substr :
  strings.Index s substr =
    if strings.HasPrefix s substr then Some 0
    else match s with
         | "" => None
         | String _ t => S <$> strings.Index t substr
         end.
Proof. by destruct s. Qed.

(** [Index] returns the start of an instance. *)
Lemma Index_Some s substr j :
  strings.Index s substr = Some j →
  s = slice_to s j +:+ substr +:+ slice_from s (j + String.length substr).
Proof.
  revert j; induction s as [|c t IH]; intros j; rewrite Index_unfold;
    destruct (strings.HasPrefix _ substr) eqn:Hp; try done.
  - intros [= <-]. by apply HasPrefix_slice.
  - intros [= <-]. rewrite slice_to_0. by apply HasPrefix_slice.
  - destruct (strings.Index t substr) as [j'|] eqn:Hi; [|done].
    intros [= <-]. simpl. rewrite str_app_cons. f_equal. by apply IH.
Qed.

Lemma Index_is_Some s substr :
  is_Some (strings.Index s substr) ↔ Spec.containsStr s substr.
Proof.
  split.
  - intros [j Hj]. eexists _, _. by apply Index_Some.
  - intros (a & b & ->). induction a as [|c a IH]; rewrite Index_unfold.
    + assert (strings.HasPrefix ("" +:+ substr +:+ b) substr = true) as ->; [|done].
      apply HasPrefix_iff. by exists b.
    + destruct (strings.HasPrefix _ substr); [done|].
      rewrite str_app_cons. destruct IH as [j ->]. done.
Qed.

Lemma Contains_iff s substr :
  strings.Contains s substr = true ↔ Spec.containsStr s substr.
Proof.
  unfold strings.Contains. rewrite bool_decide_eq_true. apply Index_is_Some.
Qed.

Lemma Contains_Index s substr :
  strings.Contains s substr = bool_decide (is_Some (strings.Index s substr)).
Proof. done. Qed.

(** [Replace] with [n = 1] replaces the first instance. *)
Lemma Replace_one s old new :
  old ≠ new →
  strings.Replace s old new 1 =
    match strings.Index s old with
    | Some j => slice_to s j +:+ new +:+ slice_from s (j + String.length old)
    | None => s
    end.
Proof.
  intros Hne. unfold strings.Replace, strings.Count.
  apply String.eqb_neq in Hne as ->. simpl.
  destruct (strings.Index s old) as [j|] eqn:Hi; simpl; by rewrite ?Hi.
Qed.

(** ** The rules of the specification and the library calls of the program *)

Lemma stripSuffix_unfold suffix s :
  Spec.stripSuffix suffix s =
    if String.eqb s suffix then Some ""
    else match s with
         | "" => None
         | String c t => String c <$> Spec.stripSuffix suffix t
         end.
Proof. by destruct s. Qed.

Lemma stripSuffix_app r suffix : Spec.stripSuffix suffix (r +:+ suffix) = Some r.
Proof.
  induction r as [|c r IH]; rewrite stripSuffix_unfold.
  - by rewrite str_app_nil_l, String.eqb_refl.
  - destruct (String.eqb_spec (String c r +:+ suffix) suffix) as [He|_].
    + apply (f_equal String.length) in He. rewrite str_length_app in He.
      simpl in He. lia.
    + rewrite str_app_cons, IH. done.
Qed.

Lemma stripSuffix_Some suffix s r :
  Spec.stripSuffix suffix s = Some r → s = r +:+ suffix.
Proof.
  revert r; induction s as [|c t IH]; intros r; rewrite stripSuffix_unfold.
  - destruct (String.eqb_spec "" suffix) as [<-|_]; [|done]. by intros [= <-].
  - destruct (String.eqb_spec (String c t) suffix) as [<-|_].
    + by intros [= <-].
    + destruct (Spec.stripSuffix suffix t) as [r'|]; [|done].
      intros [= <-]. rewrite str_app_cons. f_equal. by apply IH.
Qed.

Lemma stripSuffix_HasSuffix suffix s :
  Spec.stripSuffix suffix s =
    if strings.HasSuffix s suffix then Some (strings.TrimSuffix s suffix) else None.
Proof.
  destruct (strings.HasSuffix s suffix) eqn:Hs.
  - apply HasSuffix_iff in Hs as [r ->]. by rewrite stripSuffix_app, TrimSuffix_app.
  - destruct (Spec.stripSuffix suffix s) as [r|] eqn:Hr; [|done].
    apply stripSuffix_Some in Hr as ->.
    assert (strings.HasSuffix (r +:+ suffix) suffix = true)
      by (apply HasSuffix_iff; by exists r).
    congruence.
Qed.

Lemma stripPrefix_app p r : Spec.stripPrefix p (p +:+ r) = Some r.
Proof.
  induction p as [|c p IH]; [by destruct r|].
  rewrite str_app_cons. simpl. by rewrite Ascii.eqb_refl.
Qed.

Lemma stripPrefix_Some p s r : Spec.stripPrefix p s = Some r → s = p +:+ r.
Proof.
  revert s; induction p as [|c p IH]; intros [|d s]; simpl; try done.
  - by intros [= <-].
  - by intros [= <-].
  - destruct (Ascii.eqb_spec c d) as [<-|_]; [|done].
    intros ->%IH. done.
Qed.

Lemma stripPrefix_HasPrefix p s :
  Spec.stripPrefix p s =
    if strings.HasPrefix s p then Some (slice_from s (String.length p)) else None.
Proof.
  destruct (strings.HasPrefix s p) eqn:Hp.
  - apply HasPrefix_iff in Hp as [r ->]. by rewrite stripPrefix_app, slice_from_app.
  - destruct (Spec.stripPrefix p s) as [r|] eqn:Hr; [|done].
    apply stripPrefix_Some in Hr as ->.
    assert (strings.HasPrefix (p +:+ r) p = true)
      by (apply HasPrefix_iff; by exists r).
    congruence.
Qed.

Lemma replaceFirst_Index old new s :
  Spec.replaceFirst old new s =
    (λ j, slice_to s j +:+ new +:+ slice_from s (j + String.length old))
      <$> strings.Index s old.
Proof.
  induction s as [|c t IH]; rewrite Index_unfold; simpl Spec.replaceFirst;
    rewrite stripPrefix_HasPrefix; destruct (strings.HasPrefix _ old); try done.
  rewrite IH. by destruct (strings.Index t old).
Qed.

(** The replacing rules: [Contains] guards [Replace(_, old, new, 1)]. *)
Lemma replaceFirst_Replace old new s :
  old ≠ new →
  Spec.replaceFirst old new s =
    if strings.Contains s old then Some (strings.Replace s old new 1) else None.
Proof.
  intros Hne. rewrite replaceFirst_Index, Replace_one, Contains_Index by done.
  destruct (strings.Index s old); [|done].
  rewrite bool_decide_true; [done|by eexists].
Qed.

(** ** [ToLower] on ASCII text *)

Lemma lowerByte_not_upper c : strings.isUpperByte (strings.lowerByte c) = false.
Proof. by destruct c as [[] [] [] [] [] [] [] []]. Qed.

Lemma lowerByte_ascii c :
  strings.isASCIIByte (strings.lowerByte c) = strings.isASCIIByte c.
Proof. by destruct c as [[] [] [] [] [] [] [] []]. Qed.

Lemma lowerASCII_no_upper s : strings.hasUpper (strings.lowerASCII s) = false.
Proof. induction s; simpl; [done|]. by rewrite lowerByte_not_upper. Qed.

Lemma lowerASCII_ascii s :
  strings.isASCII (strings.lowerASCII s) = strings.isASCII s.
Proof. induction s; simpl; [done|]. by rewrite lowerByte_ascii, IHs. Qed.

(** Lowercasing is stable on the result of lowercasing ASCII text, whatever
    the Unicode path does. *)
Lemma ToLower_ascii_stable f s :
  strings.isASCII s = true →
  strings.ToLower f (strings.ToLower f s) = strings.ToLower f s.
Proof.
  intros Ha. unfold strings.ToLower at 2. rewrite Ha.
  destruct (strings.hasUpper s) eqn:Hu; simpl; unfold strings.ToLower.
  - by rewrite lowerASCII_ascii, Ha, lowerASCII_no_upper, Hu.
  - by rewrite Ha, Hu.
Qed.

(** ** The mode normalizer *)

Section ModeNormalizer.
Context `{env : Environment}.

Lemma modeToBetter_firstMatch mode :
  modeToBetter mode = Spec.modeNormalize (strings.ToLower unicodeLower) mode.
Proof.
  unfold modeToBetter, Spec.modeNormalize, Spec.rules, Spec.firstMatch.
  rewrite !stripSuffix_HasSuffix, !replaceFirst_Replace by done.
  generalize (strings.ToLower unicodeLower mode); intros m.
  repeat (destruct (strings.HasSuffix m _); [done|]); simpl.
  repeat (destruct (strings.Contains m _); [done|]).
  done.
Qed.

(** C1.  The mode normalizer is the ordered rule list of the
    specification with the first match winning: the input is lowercased;
    an ending "major" is stripped; else an ending "minor" is stripped and
    "m" appended; else the first occurrence of "mixolydian", "dorian",
    "phrygian", "lydian", "locrian" (tried in this order) becomes " mix",
    " dor", " phr", " lyd", " loc"; else the lowercased input is returned.
    "Gmajor" gives "g", "Aminor" gives "am", "Dmixolydian" gives "d mix". *)
Theorem C1_modeToBetter_ordered_rules :
  (∀ mode,
      modeToBetter mode = Spec.modeNormalize (strings.ToLower unicodeLower) mode)
  ∧ modeToBetter "Gmajor" = "g"
  ∧ modeToBetter "Aminor" = "am"
  ∧ modeToBetter "Dmixolydian" = "d mix".
Proof.
  split; [apply modeToBetter_firstMatch|].
  repeat split; vm_compute; reflexivity.
Qed.

(** Matching is done on the lowercased input: "GMAJOR" loses its ending. *)
Example modeToBetter_uppercase :
  strings.ToLower unicodeLower "GMAJOR" = "gmajor"
  ∧ modeToBetter "GMAJOR" = "g"
  ∧ modeToBetter "ADorian" = "a dor".
Proof. repeat split; by vm_compute. Qed.

(** When no rule matches the lowercased input, it is returned as it is. *)
Lemma modeToBetter_no_match mode :
  let m := strings.ToLower unicodeLower mode in
  ¬ Spec.endsWith m "major" →
  ¬ Spec.endsWith m "minor" →
  (∀ name, name ∈ Spec.modeNames → ¬ Spec.containsStr m name) →
  modeToBetter mode = m.
Proof.
  intros m Hmaj Hmin Hnames. unfold modeToBetter. fold m.
  rewrite <- HasSuffix_iff in Hmaj, Hmin.
  apply not_true_is_false in Hmaj as ->, Hmin as ->.
  assert (∀ name, name ∈ Spec.modeNames → strings.Contains m name = false) as Hc.
  { intros name Hin. apply not_true_is_false. rewrite Contains_iff. by apply Hnames. }
  rewrite !Hc; [done|unfold Spec.modeNames; set_solver..].
Qed.

(** Once more, when lowercasing leaves the lowercased input as it is. *)
Lemma modeToBetter_no_match_again mode :
  let m := strings.ToLower unicodeLower mode in
  ¬ Spec.endsWith m "major" →
  ¬ Spec.endsWith m "minor" →
  (∀ name, name ∈ Spec.modeNames → ¬ Spec.containsStr m name) →
  strings.ToLower unicodeLower m = m →
  modeToBetter (modeToBetter mode) = modeToBetter mode.
Proof.
  intros m Hmaj Hmin Hnames Hstable.
  assert (modeToBetter mode = m) as -> by by apply modeToBetter_no_match.
  rewrite modeToBetter_no_match; rewrite Hstable; done.
Qed.

(** C8.  Mode normalization is idempotent on keys without the recognized
    endings and names.  The normalizer is case-insensitive, so "ends with"
    and "contains" are read on the lowercased string: if that ends with
    neither "major" nor "minor" and contains none of the five mode names,
    normalizing returns the string lowercased.  Normalizing the result again
    returns the same string: for every ASCII string; for every string that
    is already lowercase, ASCII or not, for which the conditions are
    conditions on the string itself and the result is the string itself
    (as "g" gives "g"); and for every string at all wherever lowercasing
    twice is lowercasing once, which is a matter of [strings.ToLower] and
    not of this program. *)
Theorem C8_modeToBetter_idempotent_unmatched mode :
  let m := strings.ToLower unicodeLower mode in
  ¬ Spec.endsWith m "major" →
  ¬ Spec.endsWith m "minor" →
  (∀ name, name ∈ Spec.modeNames → ¬ Spec.containsStr m name) →
  modeToBetter mode = m
  ∧ (strings.isASCII mode = true →
     modeToBetter (modeToBetter mode) = modeToBetter mode)
  ∧ (m = mode →
     modeToBetter mode = mode ∧ modeToBetter (modeToBetter mode) = mode)
  ∧ ((∀ s, strings.ToLower unicodeLower (strings.ToLower unicodeLower s)
           = strings.ToLower unicodeLower s) →
     modeToBetter (modeToBetter mode) = modeToBetter mode).
Proof.
  intros m Hmaj Hmin Hnames.
  assert (modeToBetter mode = m) as Hm by by apply modeToBetter_no_match.
  assert (strings.ToLower unicodeLower m = m →
          modeToBetter (modeToBetter mode) = modeToBetter mode) as Hagain
    by by apply modeToBetter_no_match_again.
  split; [done|]. split; [|split].
  - intros Ha. apply Hagain. by apply ToLower_ascii_stable.
  - intros Hlow.
    assert (strings.ToLower unicodeLower m = m) as Hst by (rewrite Hlow; exact Hlow).
    split; [by rewrite Hm|]. by rewrite (Hagain Hst), Hm.
  - intros Hlib. apply Hagain, Hlib.
Qed.
End ModeNormalizer.

(** ** The filename sanitizer *)

Lemma HasPrefix_single c t a :
  strings.HasPrefix (String c t) (String a "") = Ascii.eqb c a.
Proof.
  unfold strings.HasPrefix. simpl. rewrite slice_to_0. simpl.
  by destruct (Ascii.eqb c a).
Qed.

Lemma Index_single_nil a : strings.Index "" (String a "") = None.
Proof. done. Qed.

Lemma Index_single_cons c t a :
  strings.Index (String c t) (String a "") =
    if Ascii.eqb c a then Some 0 else S <$> strings.Index t (String a "").
Proof. by rewrite Index_unfold, HasPrefix_single. Qed.

(** What the next instance of a single byte says about the whole string. *)
Lemma Index_single_spec a b s :
  match strings.Index s (String a "") with
  | None => Spec.occurrences a s = 0 ∧ Spec.replaceByte a b s = s
  | Some j =>
      Spec.occurrences a s = S (Spec.occurrences a (slice_from s (S j)))
      ∧ Spec.replaceByte a b s =
          slice_to s j +:+ String b ""
            +:+ Spec.replaceByte a b (slice_from s (S j))
      ∧ String.length (slice_from s (S j)) < String.length s
  end.
Proof.
  induction s as [|c t IH]; [done|].
  rewrite Index_single_cons.
  destruct (Ascii.eqb c a) eqn:Hc.
  - simpl. rewrite Hc, slice_from_0. repeat split; first [done | lia].
  - destruct (strings.Index t (String a "")) as [j|]; simpl; rewrite Hc.
    + destruct IH as (-> & -> & Hl). repeat split; first [done | lia].
    + destruct IH as (-> & ->). done.
Qed.

Lemma Count_rounds_single a r s :
  String.length s < r →
  strings.Count_rounds r s (String a "") = Spec.occurrences a s.
Proof.
  revert s; induction r as [|r IH]; intros s Hr; [lia|]. simpl.
  pose proof (Index_single_spec a a s) as Hs.
  destruct (strings.Index s (String a "")) as [j|].
  - destruct Hs as (-> & _ & Hl). rewrite Nat.add_1_r. f_equal. apply IH. lia.
  - by destruct Hs as [-> _].
Qed.

Lemma Replace_loop_single a b n s :
  Spec.occurrences a s ≤ n →
  strings.Replace_loop (String a "") (String b "") n s = Spec.replaceByte a b s.
Proof.
  revert s; induction n as [|n IH]; intros s Hn; simpl;
    pose proof (Index_single_spec a b s) as Hs;
    destruct (strings.Index s (String a "")) as [j|].
  - lia.
  - by destruct Hs as [_ ->].
  - destruct Hs as (Ho & -> & _). rewrite Nat.add_1_r, IH by lia. done.
  - by destruct Hs as [_ ->].
Qed.

(** [ReplaceAll] of one byte by another is the bytewise replacement. *)
Lemma ReplaceAll_single a b s :
  a ≠ b →
  strings.ReplaceAll s (String a "") (String b "") = Spec.replaceByte a b s.
Proof.
  intros Hne. unfold strings.ReplaceAll, strings.Replace, strings.Count.
  rewrite Count_rounds_single by lia.
  assert (String.eqb (String a "") (String b "") = false) as ->.
  { apply String.eqb_neq. congruence. }
  change ((-1 =? 0)%Z) with false. change ((-1 <? 0)%Z) with true.
  destruct (Spec.occurrences a s) as [|m] eqn:Ho.
  - change (s = Spec.replaceByte a b s).
    by rewrite <- (Replace_loop_single a b 0 s) by lia.
  - change (strings.Replace_loop (String a "") (String b "") (S m) s
            = Spec.replaceByte a b s).
    apply Replace_loop_single. lia.
Qed.

(** Behind an instance of a non-empty pattern the string is shorter. *)
Lemma Index_Some_shorter s substr j :
  strings.Index s substr = Some j → substr ≠ "" →
  String.length (slice_from s (j + String.length substr)) < String.length s.
Proof.
  intros H%Index_Some Hne.
  assert (0 < String.length substr) by (destruct substr; [done|simpl; lia]).
  rewrite H at 2. rewrite !str_length_app. lia.
Qed.

(** The rounds [Count] is given are enough: more rounds count the same. *)
Lemma Count_rounds_enough r s substr :
  substr ≠ "" → String.length s < r →
  strings.Count_rounds r s substr = strings.Count s substr.
Proof.
  intros Hne. unfold strings.Count.
  assert (∀ r r' s, String.length s < r → String.length s < r' →
            strings.Count_rounds r s substr = strings.Count_rounds r' s substr)
    as Hstable; [|intros; apply Hstable; lia].
  clear r s. induction r as [|r IH]; intros [|r'] s Hr Hr'; try lia. simpl.
  destruct (strings.Index s substr) as [j|] eqn:Hj; [|done].
  pose proof (Index_Some_shorter _ _ _ Hj Hne). f_equal. apply IH; lia.
Qed.

Lemma replaceIllegalByte_steps c :
  let step a c := if Ascii.eqb c a then "_"%char else c in
  foldl (λ c a, step a c) c Spec.illegalBytes = Spec.replaceIllegalByte c.
Proof. by destruct c as [[] [] [] [] [] [] [] []]. Qed.

Lemma replaceIllegal_steps s :
  foldl (λ r a, Spec.replaceByte a "_" r) s Spec.illegalBytes = Spec.replaceIllegal s.
Proof.
  induction s as [|c t IH]; [done|].
  simpl in *. rewrite IH. f_equal. apply (replaceIllegalByte_steps c).
Qed.

(** The loop over [illegalChars] replaces every illegal byte. *)
Lemma sanitize_loop name :
  foldl (λ result char, strings.ReplaceAll result char "_") name illegalChars
  = Spec.replaceIllegal name.
Proof.
  rewrite <- replaceIllegal_steps. unfold illegalChars, dquote. simpl.
  by rewrite !ReplaceAll_single by done.
Qed.

Lemma sanitizeFileName_spec name :
  sanitizeFileName name =
    if 50 <? String.length (Spec.replaceIllegal name)
    then slice_to (Spec.replaceIllegal name) 50
    else Spec.replaceIllegal name.
Proof. unfold sanitizeFileName. by rewrite sanitize_loop. Qed.

Lemma replaceIllegal_length s :
  String.length (Spec.replaceIllegal s) = String.length s.
Proof. induction s; simpl; auto. Qed.

Lemma replaceIllegalByte_legal c : Spec.replaceIllegalByte c ∉ Spec.illegalBytes.
Proof.
  unfold Spec.replaceIllegalByte. case_bool_decide as Hc; [|done].
  apply (bool_decide_eq_false_1 _). by vm_compute.
Qed.

Lemma replaceIllegal_legal s c :
  c ∈ bytes (Spec.replaceIllegal s) → c ∉ Spec.illegalBytes.
Proof.
  induction s as [|d t IH]; simpl; [by intros ?%elem_of_nil|].
  intros [->|?]%elem_of_cons; [apply replaceIllegalByte_legal|auto].
Qed.

Lemma bytes_slice_to s n c : c ∈ bytes (slice_to s n) → c ∈ bytes s.
Proof.
  revert s; induction n as [|n IH]; intros [|d t]; simpl; try by intros ?%elem_of_nil.
  intros [->|?]%elem_of_cons; [left|right; auto].
Qed.

Lemma characters_ascii s :
  strings.isASCII s = true → Spec.characters s = String.length s.
Proof.
  induction s as [|c t IH]; [done|]. simpl.
  intros [Hc Ht]%andb_true_iff. rewrite IH by done.
  assert (Spec.isContinuation c = false) as ->; [|done].
  unfold Spec.isContinuation, strings.isASCIIByte in *.
  apply Nat.ltb_lt in Hc. apply andb_false_iff. left. apply Nat.leb_gt. lia.
Qed.

Lemma replaceIllegal_ascii s :
  strings.isASCII s = true → strings.isASCII (Spec.replaceIllegal s) = true.
Proof.
  induction s as [|c t IH]; [done|]. simpl.
  intros [Hc Ht]%andb_true_iff. rewrite IH by done.
  rewrite andb_true_r. unfold Spec.replaceIllegalByte. by case_bool_decide.
Qed.

Lemma slice_to_ascii s n :
  strings.isASCII s = true → strings.isASCII (slice_to s n) = true.
Proof.
  revert s; induction n as [|n IH]; intros [|c t]; simpl; try done.
  intros [Hc Ht]%andb_true_iff. by rewrite Hc, IH.
Qed.

(** C2, as the code has it.  Sanitizing "Tune: The/Best?" gives
    "Tune_ The_Best_": the colon, the slash and the question mark become
    underscores and the space, which is not one of the nine characters,
    stays.  In general every byte that is one of the nine characters becomes
    an underscore, and the result is cut at 50 bytes. *)
Theorem C2_sanitize_title :
  sanitizeFileName "Tune: The/Best?" = "Tune_ The_Best_"
  ∧ ∀ name,
      sanitizeFileName name =
        if 50 <? String.length name
        then slice_to (Spec.replaceIllegal name) 50
        else Spec.replaceIllegal name.
Proof.
  split; [by vm_compute|].
  intros name. by rewrite sanitizeFileName_spec, replaceIllegal_length.
Qed.

(** C2 as stated fails: the result has one underscore and a space after
    "Tune", not two underscores. *)
Lemma C2_counterexample : ¬ C2_as_stated.
Proof. unfold C2_as_stated. by vm_compute. Qed.

(** C3, as the code has it.  The cut is made at 50 bytes, wherever that
    falls: a title of more than 50 bytes comes out as the first 50 bytes of
    the replaced title, exactly 50 bytes long, which is 50 characters when
    the title is ASCII. *)
Theorem C3_sanitize_cut_at_50_bytes name :
  50 < String.length name →
  sanitizeFileName name = slice_to (Spec.replaceIllegal name) 50
  ∧ String.length (sanitizeFileName name) = 50
  ∧ (strings.isASCII name = true → Spec.characters (sanitizeFileName name) = 50).
Proof.
  intros Hlen.
  assert (sanitizeFileName name = slice_to (Spec.replaceIllegal name) 50) as ->.
  { rewrite sanitizeFileName_spec, replaceIllegal_length.
    by apply Nat.ltb_lt in Hlen as ->. }
  assert (String.length (slice_to (Spec.replaceIllegal name) 50) = 50) as Hl.
  { rewrite slice_to_length, replaceIllegal_length. lia. }
  repeat split; [done|]. intros Ha.
  rewrite characters_ascii; [done|]. by apply slice_to_ascii, replaceIllegal_ascii.
Qed.

(** A title of 51 two-byte letters: 51 characters in 102 bytes.  The cut
    at byte 50 falls between the 25th and the 26th letter, and 25 letters
    are left. *)
Example sanitize_two_byte_letters :
  let name := repeatStr 51 eAcute in
  Spec.characters name = 51
  ∧ String.length name = 102
  ∧ sanitizeFileName name = repeatStr 25 eAcute
  ∧ Spec.characters (sanitizeFileName name) = 25
  ∧ ¬ Spec.cutsInsideSequence (Spec.replaceIllegal name) 50.
Proof. repeat split; by vm_compute. Qed.

(** C3 as stated fails: a title of 51 two-byte letters has more than 50
    characters and comes out with 25 of them, although the cut, at byte 50,
    falls between two letters. *)
Lemma C3_counterexample : ¬ C3_as_stated.
Proof.
  intros H. specialize (H (repeatStr 51 eAcute)).
  destruct H as [H|[_ H]]; [by vm_compute| |]; by vm_compute in H.
Qed.

(** The same title after one ASCII letter: the cut falls inside the 25th
    two-byte letter, and the result ends with that letter's first byte. *)
Example sanitize_splits_a_letter :
  let name := "a" +:+ repeatStr 50 eAcute in
  Spec.cutsInsideSequence (Spec.replaceIllegal name) 50
  ∧ sanitizeFileName name
    = "a" +:+ repeatStr 24 eAcute +:+ String (ascii_of_nat 195) "".
Proof. split; by vm_compute. Qed.

(** C10.  The sanitized name is at most 50 bytes long and contains none
    of the nine characters. *)
Theorem C10_sanitize_bounded_and_legal name :
  String.length (sanitizeFileName name) ≤ 50
  ∧ ∀ c, c ∈ Spec.illegalBytes → c ∉ bytes (sanitizeFileName name).
Proof.
  rewrite sanitizeFileName_spec. split.
  - destruct (50 <? _) eqn:Hlt.
    + rewrite slice_to_length. lia.
    + apply Nat.ltb_ge in Hlt. done.
  - intros c Hc Hin. destruct (50 <? _).
    + by apply bytes_slice_to, replaceIllegal_legal in Hin.
    + by apply replaceIllegal_legal in Hin.
Qed.

(** ** Writing to files *)

Lemma World_eq w1 w2 :
  files w1 = files w2 → dirs w1 = dirs w2 → stdout w1 = stdout w2 → w1 = w2.
Proof. destruct w1, w2; simpl; by intros -> -> ->. Qed.

Lemma Fprint_Fprint f a b w : Fprint f b (Fprint f a w) = Fprint f (a +:+ b) w.
Proof.
  apply World_eq; simpl; try done.
  rewrite alter_alter_eq. apply alter_ext. intros c _. simpl.
  apply str_app_assoc.
Qed.

Lemma Fprint_empty f w : Fprint f "" w = w.
Proof.
  apply World_eq; simpl; try done.
  apply alter_id. intros c _. apply str_app_nil_r.
Qed.

Lemma Fprint_withFile f content text w :
  Fprint f text (withFile f content w) = withFile f (content +:+ text) w.
Proof. apply World_eq; simpl; try done. by rewrite alter_insert_eq. Qed.

Lemma os_Create_withFile path w : os_Create path w = withFile path "" w.
Proof. done. Qed.

Lemma Print_withFile m path content w :
  Print m (withFile path content w) = withFile path content (Print m w).
Proof. done. Qed.

(** ** The renderer *)

Section Renderer.
Context `{env : Environment}.

(** The writes of one round of either loop, as text. *)
Lemma block_text tune :
  Spec.block modeToBetter tune =
    ("X:" +:+ SettingID tune +:+ nl) +:+ ("T:" +:+ Name tune +:+ nl)
    +:+ ("R:" +:+ Type_ tune +:+ nl) +:+ ("M:" +:+ Meter tune +:+ nl)
    +:+ ("K:" +:+ modeToBetter (Mode tune) +:+ nl)
    +:+ (if bool_decide (Username tune ≠ "")
         then "Z:" +:+ Username tune +:+ nl else "")
    +:+ (if bool_decide (Date tune ≠ "")
         then "H:Added " +:+ Date tune +:+ nl else "")
    +:+ (ABC tune +:+ nl).
Proof.
  unfold Spec.block, Spec.render, Spec.header.
  destruct (decide (Username tune = "")) as [Hu|Hu];
    destruct (decide (Date tune = "")) as [Hd|Hd];
    rewrite ?(bool_decide_true _ Hu), ?(bool_decide_false _ Hu),
      ?(bool_decide_true _ Hd), ?(bool_decide_false _ Hd),
      ?(bool_decide_true (_ ≠ _)), ?(bool_decide_false (_ ≠ _)) by auto;
    simpl; by rewrite ?str_app_assoc, ?str_app_nil_l, ?str_app_nil_r.
Qed.

Lemma outputToSingleFile_body_block f w tune :
  outputToSingleFile_body f w tune
  = Fprint f (Spec.block modeToBetter tune +:+ nl) w.
Proof.
  rewrite block_text. unfold outputToSingleFile_body.
  do 2 case_bool_decide;
    rewrite !Fprint_Fprint; f_equal;
    by rewrite ?str_app_assoc, ?str_app_nil_l, ?str_app_nil_r.
Qed.

Lemma outputToMultipleFiles_body_block dir i tune processed w :
  outputToMultipleFiles_body dir i tune (processed, w) =
    match os_Create_error i (pathOf dir tune) with
    | Some err =>
        (processed, Print (ErrorCreatingFileAt (pathOf dir tune) err) w)
    | None =>
        let w := withFile (pathOf dir tune) (Spec.block modeToBetter tune) w in
        (S processed,
         if (i + 1) mod 100 =? 0 then Print (Processed (i + 1)) w else w)
    end.
Proof.
  rewrite block_text. unfold outputToMultipleFiles_body, pathOf, Spec.fileName.
  destruct (os_Create_error i _); [done|].
  rewrite os_Create_withFile. cbv zeta.
  do 2 case_bool_decide;
    rewrite !Fprint_withFile; do 3 f_equal;
    by rewrite ?str_app_assoc, ?str_app_nil_l, ?str_app_nil_r.
Qed.
End Renderer.

Section RendererClaims.
Context `{env : Environment}.

Lemma Z_line_in_header tune :
  "Z:" +:+ Username tune ∈ Spec.header modeToBetter tune ↔ Username tune ≠ "".
Proof.
  unfold Spec.header. split.
  - intros Hin Hu. rewrite Hu in Hin. rewrite bool_decide_true in Hin by done.
    case_bool_decide; set_unfold in Hin; cbv [String.append] in Hin;
      intuition discriminate.
  - intros Hu. rewrite (bool_decide_false _ Hu). set_solver.
Qed.

Lemma H_line_in_header tune :
  "H:Added " +:+ Date tune ∈ Spec.header modeToBetter tune ↔ Date tune ≠ "".
Proof.
  unfold Spec.header. split.
  - intros Hin Hd. rewrite Hd in Hin.
    rewrite (bool_decide_true ("" = "")) in Hin by done.
    case_bool_decide; set_unfold in Hin; cbv [String.append] in Hin;
      intuition discriminate.
  - intros Hd. rewrite (bool_decide_false _ Hd). set_solver.
Qed.

(** C4.  Both output functions write, for every tune, exactly the lines
    of the renderer of the specification, each ended by a line feed:
    X:<setting_id>, T:<name>, R:<type>, M:<meter>, K:<normalized mode> in
    this order, then Z:<username> if and only if the username is not
    empty, then H:Added <date> if and only if the date is not empty, then
    the abc body as it is.  Single-file mode adds its blank line; in
    multi-file mode the lines are the whole file.  With all fields empty
    the lines are the bare prefixes. *)
Theorem C4_render_lines_in_fixed_order tune :
  (∀ f w,
      outputToSingleFile_body f w tune
      = Fprint f (Spec.unlines (Spec.render modeToBetter tune) +:+ nl) w)
  ∧ (∀ dir i processed w,
      outputToMultipleFiles_body dir i tune (processed, w) =
        match os_Create_error i (pathOf dir tune) with
        | Some err =>
            (processed, Print (ErrorCreatingFileAt (pathOf dir tune) err) w)
        | None =>
            let w :=
              withFile (pathOf dir tune)
                (Spec.unlines (Spec.render modeToBetter tune)) w in
            (S processed,
             if (i + 1) mod 100 =? 0 then Print (Processed (i + 1)) w else w)
        end)
  ∧ take 5 (Spec.render modeToBetter tune) =
      [ "X:" +:+ SettingID tune; "T:" +:+ Name tune; "R:" +:+ Type_ tune;
        "M:" +:+ Meter tune; "K:" +:+ modeToBetter (Mode tune) ]
  ∧ ("Z:" +:+ Username tune ∈ Spec.header modeToBetter tune
     ↔ Username tune ≠ "")
  ∧ ("H:Added " +:+ Date tune ∈ Spec.header modeToBetter tune
     ↔ Date tune ≠ "")
  ∧ last (Spec.render modeToBetter tune) = Some (ABC tune)
  ∧ Spec.render modeToBetter zeroTune = ["X:"; "T:"; "R:"; "M:"; "K:"; ""].
Proof.
  split; [intros; apply outputToSingleFile_body_block|].
  split; [intros; apply outputToMultipleFiles_body_block|].
  split; [done|].
  split; [apply Z_line_in_header|].
  split; [apply H_line_in_header|].
  split; [apply last_snoc|]. by vm_compute.
Qed.
End RendererClaims.

(** ** Single-file mode *)

Section SingleFile.
Context `{env : Environment}.

Lemma outputToSingleFile_loop f tunes w :
  foldl (outputToSingleFile_body f) w tunes
  = Fprint f (Spec.combined modeToBetter tunes) w.
Proof.
  revert w; induction tunes as [|t ts IH]; intros w; simpl.
  - by rewrite Fprint_empty.
  - by rewrite IH, outputToSingleFile_body_block, Fprint_Fprint, str_app_assoc.
Qed.

(** C5.  Single-file mode creates one file and writes into it the blocks
    of all tunes in input order, each followed by one blank line, so that
    two consecutive blocks are separated by exactly one blank line; when
    the file cannot be created the run exits with status 1 and writes
    nothing.  For the two tunes with setting_id "1", name "A" and
    setting_id "2", name "B" the file holds the block of the first, a
    blank line, the block of the second, a blank line. *)
Theorem C5_single_file_blocks_in_order tunes dir fileName w :
  let path := filepath_Join dir fileName in
  outputToSingleFile tunes dir fileName w =
    match os_Create_error 0 path with
    | Some err => (Exit 1, Print (ErrorCreatingFile err) w)
    | None =>
        (Returned,
         Print (WroteToFile (List.length tunes) path)
           (withFile path (Spec.combined modeToBetter tunes) w))
    end
  ∧ (∀ t1 t2,
      Spec.combined modeToBetter [t1; t2] =
        Spec.block modeToBetter t1 +:+ nl
        +:+ Spec.block modeToBetter t2 +:+ nl)
  ∧ Spec.combined modeToBetter [tuneA; tuneB] =
      Spec.unlines
        [ "X:1"; "T:A"; "R:reel"; "M:4/4"; "K:g"; "|:GABc:|";
          "";
          "X:2"; "T:B"; "R:jig"; "M:6/8"; "K:a dor"; "Z:bob";
          "H:Added 2020-01-01"; "|:ABcd:|";
          "" ].
Proof.
  intros path. split; [|split].
  - unfold outputToSingleFile. fold path.
    destruct (os_Create_error 0 path); [done|].
    by rewrite outputToSingleFile_loop, os_Create_withFile, Fprint_withFile.
  - intros t1 t2. simpl. by rewrite str_app_nil_r.
  - by vm_compute.
Qed.
End SingleFile.

(** ** Multi-file mode *)

Section MultiFile.
Context `{env : Environment}.

Lemma createdPaths_length dir i tunes :
  List.length (createdPaths dir i tunes) ≤ List.length tunes.
Proof.
  revert i; induction tunes as [|t ts IH]; intros i; simpl; [done|].
  specialize (IH (S i)). destruct (os_Create_error i _); simpl; lia.
Qed.

(** A path is created exactly when it is the path of a tune whose
    [os.Create] succeeds. *)
Lemma createdPaths_elem dir i tunes p :
  p ∈ createdPaths dir i tunes ↔
  ∃ k t, tunes !! k = Some t ∧ p = pathOf dir t ∧ os_Create_error (i + k) p = None.
Proof.
  revert i; induction tunes as [|t ts IH]; intros i; simpl.
  - split; [by intros ?%elem_of_nil|]. by intros (k & t & ? & _).
  - assert (p ∈ createdPaths dir (S i) ts ↔
            ∃ k t', (t :: ts) !! S k = Some t' ∧ p = pathOf dir t'
                    ∧ os_Create_error (i + S k) p = None) as Hrest.
    { rewrite IH. by setoid_rewrite Nat.add_succ_r. }
    destruct (os_Create_error i (pathOf dir t)) as [err|] eqn:Hc.
    + rewrite Hrest. split.
      * intros (k & t' & ?). by exists (S k), t'.
      * intros ([|k] & t' & Hk & -> & Hok); [|by exists k, t'].
        simpl in Hk. injection Hk as <-. rewrite Nat.add_0_r in Hok. congruence.
    + rewrite elem_of_cons, Hrest. split.
      * intros [->|(k & t' & ?)]; [|by exists (S k), t'].
        exists 0, t. by rewrite Nat.add_0_r.
      * intros ([|k] & t' & Hk & -> & Hok); [|right; by exists k, t'].
        simpl in Hk. injection Hk as <-. by left.
Qed.

(** What the loop does to the counter and the world. *)
Lemma outputToMultipleFiles_loop_spec dir tunes i n w :
  ∃ w' msgs,
    outputToMultipleFiles_loop dir i tunes (n, w)
    = (n + List.length (createdPaths dir i tunes), w')
    ∧ dirs w' = dirs w
    ∧ stdout w' = stdout w ++ msgs
    ∧ (∀ k t err, tunes !! k = Some t →
         os_Create_error (i + k) (pathOf dir t) = Some err →
         ErrorCreatingFileAt (pathOf dir t) err ∈ msgs)
    ∧ (∀ p, p ∉ createdPaths dir i tunes → files w' !! p = files w !! p)
    ∧ (∀ p, is_Some (files w !! p) → is_Some (files w' !! p))
    ∧ (∀ p, p ∈ createdPaths dir i tunes → is_Some (files w' !! p))
    ∧ (∀ k t, tunes !! k = Some t →
         os_Create_error (i + k) (pathOf dir t) = None →
         (∀ k' t', k < k' → tunes !! k' = Some t' →
            os_Create_error (i + k') (pathOf dir t') = None →
            pathOf dir t' ≠ pathOf dir t) →
         files w' !! pathOf dir t = Some (Spec.block modeToBetter t)).
Proof.
  revert i n w; induction tunes as [|t ts IH]; intros i n w.
  { exists w, []. simpl. rewrite Nat.add_0_r, app_nil_r.
    repeat split; try done. by intros p ?%elem_of_nil. }
  cbn [outputToMultipleFiles_loop createdPaths].
  rewrite outputToMultipleFiles_body_block.
  destruct (os_Create_error i (pathOf dir t)) as [err|] eqn:Hc.
  - destruct (IH (S i) n (Print (ErrorCreatingFileAt (pathOf dir t) err) w))
      as (w' & msgs & -> & Hd & Ho & Hlog & Hsame & Hkeep & Hnew & Hcont).
    exists w', (ErrorCreatingFileAt (pathOf dir t) err :: msgs).
    repeat split; try done.
    + rewrite Ho. simpl. by rewrite <- app_assoc.
    + intros [|k] t' err' Hk He.
      * simpl in Hk. injection Hk as <-. rewrite Nat.add_0_r in He.
        rewrite Hc in He. injection He as <-. by left.
      * right. apply (Hlog k t' err'); [done|]. by rewrite Nat.add_succ_r in He.
    + intros [|k] t' Hk Hok Hlater.
      * simpl in Hk. injection Hk as <-. rewrite Nat.add_0_r in Hok. congruence.
      * apply (Hcont k t'); [done|by rewrite Nat.add_succ_r in Hok|].
        intros k' t'' Hlt Hk' Hok'. apply (Hlater (S k') t''); [lia|done|].
        by rewrite Nat.add_succ_r.
  - cbv zeta.
    set (w1 := if (i + 1) mod 100 =? 0
               then Print (Processed (i + 1))
                      (withFile (pathOf dir t) (Spec.block modeToBetter t) w)
               else withFile (pathOf dir t) (Spec.block modeToBetter t) w).
    assert (files w1 = <[pathOf dir t := Spec.block modeToBetter t]> (files w)
            ∧ dirs w1 = dirs w ∧ ∃ m1, stdout w1 = stdout w ++ m1)
      as (Hf1 & Hd1 & m1 & Ho1).
    { unfold w1. destruct (_ =? 0); simpl; repeat split; try done.
      - by eexists.
      - exists []. by rewrite app_nil_r. }
    clearbody w1.
    destruct (IH (S i) (S n) w1)
      as (w' & msgs & -> & Hd & Ho & Hlog & Hsame & Hkeep & Hnew & Hcont).
    exists w', (m1 ++ msgs).
    repeat split.
    + f_equal. simpl. lia.
    + congruence.
    + rewrite Ho, Ho1. by rewrite <- app_assoc.
    + intros [|k] t' err' Hk He.
      * simpl in Hk. injection Hk as <-. rewrite Nat.add_0_r in He. congruence.
      * apply elem_of_app. right.
        apply (Hlog k t' err'); [done|]. by rewrite Nat.add_succ_r in He.
    + intros p [Hne Hp]%not_elem_of_cons.
      rewrite Hsame, Hf1 by done. by rewrite lookup_insert_ne.
    + intros p Hp. apply Hkeep. rewrite Hf1.
      destruct (decide (pathOf dir t = p)) as [<-|?].
      * rewrite lookup_insert_eq. by eexists.
      * by rewrite lookup_insert_ne.
    + intros p [->|Hp]%elem_of_cons; [|by apply Hnew].
      apply Hkeep. rewrite Hf1, lookup_insert_eq. by eexists.
    + intros [|k] t' Hk Hok Hlater.
      * simpl in Hk. injection Hk as <-.
        rewrite Hsame, Hf1; [by rewrite lookup_insert_eq|].
        intros (k' & t'' & Hk' & Hp & Hok')%createdPaths_elem.
        apply (Hlater (S k') t''); [lia|done| |done].
        by rewrite Nat.add_succ_r, <- Hp.
      * apply (Hcont k t'); [done|by rewrite Nat.add_succ_r in Hok|].
        intros k' t'' Hlt Hk' Hok'. apply (Hlater (S k') t''); [lia|done|].
        by rewrite Nat.add_succ_r.
Qed.

(** C6.  Multi-file mode on N tunes creates files at no more than N
    paths, each the output directory joined with
    <setting_id>_<sanitized name>.abc of a tune, and touches no other
    file.  A tune whose file cannot be created is logged and skipped, and
    the loop goes on with the next tune: every tune whose file can be
    created is written, and holds its block unless a later tune takes the
    same path.  The count reported at the end is the number of tunes
    written, at most N. *)
Theorem C6_multi_file_skips_failures tunes dir w :
  let w' := outputToMultipleFiles tunes dir w in
  let created := createdPaths dir 0 tunes in
  List.length created ≤ List.length tunes
  ∧ (∀ p, p ∈ created → ∃ t, t ∈ tunes ∧ p = filepath_Join dir (Spec.fileName t))
  ∧ (∀ p, p ∈ created → is_Some (files w' !! p))
  ∧ (∀ p, p ∉ created → files w' !! p = files w !! p)
  ∧ last (stdout w') = Some (WroteToFiles (List.length created) dir)
  ∧ (∀ i t err, tunes !! i = Some t →
       os_Create_error i (pathOf dir t) = Some err →
       ErrorCreatingFileAt (pathOf dir t) err ∈ stdout w')
  ∧ (∀ i t rest n w0 err,
       os_Create_error i (pathOf dir t) = Some err →
       outputToMultipleFiles_loop dir i (t :: rest) (n, w0)
       = outputToMultipleFiles_loop dir (S i) rest
           (n, Print (ErrorCreatingFileAt (pathOf dir t) err) w0))
  ∧ (∀ i t, tunes !! i = Some t →
       os_Create_error i (pathOf dir t) = None →
       pathOf dir t ∈ created
       ∧ ((∀ j t', i < j → tunes !! j = Some t' →
             os_Create_error j (pathOf dir t') = None →
             pathOf dir t' ≠ pathOf dir t) →
          files w' !! pathOf dir t = Some (Spec.block modeToBetter t))).
Proof.
  intros w' created. unfold w', outputToMultipleFiles.
  destruct (outputToMultipleFiles_loop_spec dir tunes 0 0 w)
    as (w1 & msgs & -> & Hd & Ho & Hlog & Hsame & Hkeep & Hnew & Hcont).
  fold created in Hsame, Hnew |- *. cbv beta iota zeta.
  split; [apply createdPaths_length|].
  split.
  { intros p (k & t & Hk & -> & _)%createdPaths_elem.
    exists t. split; [|done]. apply list_elem_of_lookup. by exists k. }
  split; [done|]. split; [done|].
  split; [apply last_snoc|].
  split.
  { intros i t err Hi He. apply elem_of_app. left. rewrite Ho.
    apply elem_of_app. right. by apply (Hlog i t err). }
  split.
  { intros i t rest n w0 err He. cbn [outputToMultipleFiles_loop].
    by rewrite outputToMultipleFiles_body_block, He. }
  intros i t Hi Hok. split.
  - apply createdPaths_elem. by exists i, t.
  - intros Hlater. by apply (Hcont i t).
Qed.
End MultiFile.

(** ** The decoder *)

Section Decoder.
Variable folded : string → option TuneField.

Local Abbreviation fieldFor := (json.fieldFor folded).
Local Abbreviation storeMember := (json.storeMember folded).
Local Abbreviation storeTune := (json.storeTune folded).
Local Abbreviation storeElems := (json.storeElems folded).
Local Abbreviation store := (json.store folded).

Lemma getField_setField f g s t :
  getField f (setField g s t) = if decide (f = g) then s else getField f t.
Proof. by destruct t, f, g. Qed.

(** The tune a member leaves behind does not depend on the saved error. *)
Lemma storeMember_fst st kv :
  (storeMember st kv).1 =
    match fieldFor kv.1, kv.2 with
    | Some f, json.Str s => setField f s st.1
    | _, _ => st.1
    end.
Proof.
  unfold json.storeMember, json.storeString.
  destruct (fieldFor kv.1); [|done]. by destruct kv.2.
Qed.

Lemma storeMember_snd st kv :
  (storeMember st kv).2 = None ↔
  st.2 = None ∧ (is_Some (fieldFor kv.1) → Spec.fitsString kv.2).
Proof.
  unfold json.storeMember, json.storeString.
  destruct (fieldFor kv.1) as [f|]; [|split; [by intros ->; split; [|intros []]|by intros [-> _]]].
  destruct kv.2, st as [t [e|]]; simpl; split; try done;
  first [ by intros [? _] | by intros [_ []] ].
Qed.

Lemma storeMembers_snd members st :
  (foldl storeMember st members).2 = None ↔
  st.2 = None
  ∧ ∀ k x, (k, x) ∈ members → is_Some (fieldFor k) → Spec.fitsString x.
Proof.
  revert st; induction members as [|kv ms IH]; intros st; simpl.
  - split; [|by intros [? _]]. intros ?. split; [done|]. by intros k x ?%elem_of_nil.
  - rewrite IH, storeMember_snd. split.
    + intros [[Hs Hkv] Hms]. split; [done|].
      intros k x [<-|?]%elem_of_cons; [done|by apply Hms].
    + intros [Hs Hall]. repeat split; [done| |].
      * destruct kv as [k x]. apply Hall. by left.
      * intros k x ?. apply Hall. by right.
Qed.

(** A field that no key of the object selects keeps its value. *)
Lemma storeMembers_omitted members st f :
  (∀ k x, (k, x) ∈ members → fieldFor k ≠ Some f) →
  getField f (foldl storeMember st members).1 = getField f st.1.
Proof.
  revert st; induction members as [|[k x] ms IH]; intros st Hom; simpl; [done|].
  rewrite IH by (intros k' x' ?; apply (Hom k' x'); by right).
  rewrite storeMember_fst. simpl.
  destruct (fieldFor k) as [g|] eqn:Hk; [|done].
  destruct x; try done. rewrite getField_setField.
  case_decide as Hfg; [|done]. subst g.
  by destruct (Hom k (json.Str s)); [left|].
Qed.

Lemma storeTune_snd v saved :
  (storeTune v saved).2 = None ↔ saved = None ∧ Spec.fitsTune fieldFor v.
Proof.
  destruct v; simpl; try (by destruct saved; intuition done).
  apply storeMembers_snd.
Qed.

Lemma storeElems_snd elems saved :
  (storeElems elems saved).2 = None ↔
  saved = None ∧ ∀ e, e ∈ elems → Spec.fitsTune fieldFor e.
Proof.
  revert saved; induction elems as [|v vs IH]; intros saved; simpl.
  - split; [|by intros [? _]]. intros ?. split; [done|]. by intros e ?%elem_of_nil.
  - pose proof (storeTune_snd v saved) as Hv.
    destruct (storeTune v saved) as [t s1] eqn:Hst. simpl in Hv.
    specialize (IH s1). destruct (storeElems vs s1) as [ts s2]. simpl in *.
    rewrite IH, Hv. split.
    + intros [[? ?] ?]. split; [done|].
      by intros e [->|?]%elem_of_cons; auto.
    + intros [? Hall]. repeat split; [done| |].
      * apply Hall. by left.
      * intros e ?. apply Hall. by right.
Qed.

Lemma storeElems_length elems saved :
  List.length (storeElems elems saved).1 = List.length elems.
Proof.
  revert saved; induction elems as [|v vs IH]; intros saved; simpl; [done|].
  destruct (storeTune v saved) as [t s1]. specialize (IH s1).
  destruct (storeElems vs s1) as [ts s2]. simpl in *. by rewrite IH.
Qed.

(** The tune at index [i] is the one its element is stored into. *)
Lemma storeElems_lookup elems saved i v t :
  elems !! i = Some v → (storeElems elems saved).1 !! i = Some t →
  ∃ saved', t = (storeTune v saved').1.
Proof.
  revert saved i; induction elems as [|v0 vs IH]; intros saved i; [done|].
  simpl. destruct (storeTune v0 saved) as [t0 s1] eqn:Hst.
  specialize (IH s1). destruct (storeElems vs s1) as [ts s2]. simpl in *.
  destruct i as [|i]; simpl.
  - intros [= ->] [= <-]. exists saved. by rewrite Hst.
  - apply IH.
Qed.

Lemma storeElems_empty_objects n :
  storeElems (replicate n (json.Object [])) None = (replicate n zeroTune, None).
Proof. induction n as [|n IH]; simpl; [done|]. by rewrite IH. Qed.

(** The decoder returns no error exactly on the values it accepts. *)
Lemma store_snd v : (store v).2 = None ↔ Spec.fitsTunes fieldFor v.
Proof.
  destruct v; simpl; try by intuition done.
  rewrite storeElems_snd. by intuition done.
Qed.

Lemma Unmarshal_snd scan data :
  (json.Unmarshal scan folded data).2 = None ↔ Spec.accepted fieldFor (scan data).
Proof.
  unfold json.Unmarshal, Spec.accepted. destruct (scan data) as [v|].
  - rewrite store_snd. split; [by exists v|]. by intros (? & [= <-] & ?).
  - split; [done|]. by intros (? & ? & _).
Qed.
End Decoder.

Section DecoderClaims.
Context `{env : Environment}.

(** C9.  Decoding an array of objects never fails for a field that is left
    out.  The result has one record per object; it carries no error exactly
    when every key that selects a field carries a string (or null), whatever
    keys are missing; and a field that no key of its object selects,
    required or not, is the empty string.  An array of [n] empty objects
    decodes without error into [n] records with all fields empty.  This is
    what [Unmarshal] returns for any text that denotes the array. *)
Theorem C9_omitted_fields_decode_as_empty
    (objects : list (list (string * json.Value))) (n : nat) :
  let result := json.store json_folded (json.Array (json.Object <$> objects)) in
  List.length result.1 = List.length objects
  ∧ (result.2 = None ↔
     ∀ members k x, members ∈ objects → (k, x) ∈ members →
       is_Some (json.fieldFor json_folded k) → Spec.fitsString x)
  ∧ (∀ i members t f,
       objects !! i = Some members → result.1 !! i = Some t →
       (∀ k x, (k, x) ∈ members → json.fieldFor json_folded k ≠ Some f) →
       getField f t = "")
  ∧ json.store json_folded (json.Array (replicate n (json.Object [])))
    = (replicate n zeroTune, None)
  ∧ (∀ scan data v,
       scan data = Some v →
       json.Unmarshal scan json_folded data = json.store json_folded v).
Proof.
  cbv zeta. cbn [json.store]. repeat split.
  - by rewrite storeElems_length, length_fmap.
  - intros [_ Hall]%storeElems_snd members k x Hm.
    apply (Hall (json.Object members)). apply list_elem_of_fmap. by exists members.
  - intros Hall. apply storeElems_snd. split; [done|].
    intros e (members & -> & Hm)%list_elem_of_fmap k x. by apply Hall.
  - intros i members t f Hi Ht Hom.
    assert ((json.Object <$> objects) !! i = Some (json.Object members)) as Hv
      by by rewrite list_lookup_fmap, Hi.
    destruct (storeElems_lookup _ _ _ _ _ _ Hv Ht) as [saved' ->].
    cbn [json.storeTune]. rewrite storeMembers_omitted by done. by destruct f.
  - apply storeElems_empty_objects.
  - intros scan data v Hs. unfold json.Unmarshal. by rewrite Hs.
Qed.

(** C7, as the code has it.  When the input text is not valid JSON, or is
    a value other than an array or null, or has an element other than an
    object or null, or gives a field a value other than a string or null,
    decoding fails: the run prints the error, exits with status 1 and leaves
    every file as it was, whatever part of the input could be decoded.
    Any other input decodes without error; null is taken in every place. *)
Theorem C7_decode_error_exits_without_output flags w data :
  inputFile flags ≠ "" →
  files w !! inputFile flags = Some data →
  (¬ Spec.accepted (json.fieldFor json_folded) (json_scan data) →
   (∃ err, main flags w = (Exit 1, Print (ErrorParsingJSON err) w))
   ∧ files (main flags w).2 = files w
   ∧ dirs (main flags w).2 = dirs w)
  ∧ (Spec.accepted (json.fieldFor json_folded) (json_scan data) →
     ∃ tunes, json.Unmarshal json_scan json_folded data = (tunes, None)).
Proof.
  intros Hin Hdata.
  pose proof (Unmarshal_snd json_folded json_scan data) as Hacc.
  unfold main. rewrite (bool_decide_false _ Hin), Hdata.
  destruct (json.Unmarshal json_scan json_folded data) as [tunes [err|]];
    simpl in Hacc; split.
  - intros _. split; [by exists err|done].
  - intros Ha. by apply Hacc in Ha.
  - intros Hn. destruct Hn. by apply Hacc.
  - intros _. by exists tunes.
Qed.
End DecoderClaims.

(** ** Closed instances *)

(** On the text [null] single-file mode decodes no tune, creates the output
    directory and an empty output file, and returns. *)
Example main_on_null :
  @main exampleEnv (mkFlags "tunes.json" "out" true "all_tunes.abc") (worldWith "null")
  = (Returned,
     mkWorld (<["out/all_tunes.abc" := ""]> {[ "tunes.json" := "null" ]})
       {[ "out" ]}
       [FoundTunes 0; CreatedDirectory "out"; WroteToFile 0 "out/all_tunes.abc"]).
Proof.
  unfold main. cbn [inputFile outputDir singleFile singleFilePath].
  rewrite bool_decide_false by done.
  unfold worldWith at 1. cbn [files]. rewrite lookup_singleton_eq.
  change (json.Unmarshal json_scan json_folded "null") with (@nil Tune, @None json.Error).
  cbv iota beta. unfold os_exists.
  rewrite bool_decide_false.
  2:{ unfold worldWith, Print. cbn [files dirs].
      rewrite dom_singleton_L.
      by intros [?%elem_of_empty|?%elem_of_singleton]. }
  cbn [os_MkdirAll_error exampleEnv].
  unfold outputToSingleFile.
  cbn [os_Create_error exampleEnv filepath_Join foldl].
  unfold os_Create, Print, os_MkdirAll, worldWith. cbn [files dirs stdout].
  reflexivity.
Qed.

(** C7 as stated fails on the text [null]: it is not an array, yet the run
    returns normally and has written a file. *)
Lemma C7_counterexample : ¬ C7_as_stated.
Proof.
  intros H.
  destruct (H exampleEnv (mkFlags "tunes.json" "out" true "all_tunes.abc")
              (worldWith "null") "null") as [(code & Hc & _) _].
  - done.
  - apply lookup_singleton_eq.
  - by intros (elems & [=] & _).
  - rewrite main_on_null in Hc. done.
Qed.

Lemma C3_witness :
  let name := repeatStr 51 "a" in
  sanitizeFileName name = slice_to (Spec.replaceIllegal name) 50
  ∧ String.length (sanitizeFileName name) = 50
  ∧ (strings.isASCII name = true → Spec.characters (sanitizeFileName name) = 50).
Proof. apply (C3_sanitize_cut_at_50_bytes (repeatStr 51 "a")). vm_compute. lia. Defined.

Lemma C8_witness :
  @modeToBetter exampleEnv "g" = "g"
  ∧ (strings.isASCII "g" = true →
     @modeToBetter exampleEnv (@modeToBetter exampleEnv "g")
     = @modeToBetter exampleEnv "g")
  ∧ ("g" = "g" →
     @modeToBetter exampleEnv "g" = "g"
     ∧ @modeToBetter exampleEnv (@modeToBetter exampleEnv "g") = "g")
  ∧ ((∀ s, strings.ToLower (@unicodeLower exampleEnv)
             (strings.ToLower (@unicodeLower exampleEnv) s)
           = strings.ToLower (@unicodeLower exampleEnv) s) →
     @modeToBetter exampleEnv (@modeToBetter exampleEnv "g")
     = @modeToBetter exampleEnv "g").
Proof.
  apply (@C8_modeToBetter_idempotent_unmatched exampleEnv "g").
  - rewrite <- HasSuffix_iff. by vm_compute.
  - rewrite <- HasSuffix_iff. by vm_compute.
  - intros name Hname. rewrite <- Contains_iff.
    unfold Spec.modeNames in Hname.
    repeat (apply elem_of_cons in Hname as [->|Hname]; [by vm_compute|]).
    by apply elem_of_nil in Hname.
Defined.

Lemma C7_witness :
  let flags := mkFlags "tunes.json" "out" false "all_tunes.abc" in
  let w := worldWith "[{" in
  (¬ Spec.accepted (json.fieldFor (@json_folded exampleEnv)) (@json_scan exampleEnv "[{") →
   (∃ err, @main exampleEnv flags w = (Exit 1, Print (ErrorParsingJSON err) w))
   ∧ files (@main exampleEnv flags w).2 = files w
   ∧ dirs (@main exampleEnv flags w).2 = dirs w)
  ∧ (Spec.accepted (json.fieldFor (@json_folded exampleEnv)) (@json_scan exampleEnv "[{") →
     ∃ tunes,
       json.Unmarshal (@json_scan exampleEnv) (@json_folded exampleEnv) "[{"
       = (tunes, None)).
Proof.
  apply (@C7_decode_error_exits_without_output exampleEnv
           (mkFlags "tunes.json" "out" false "all_tunes.abc") (worldWith "[{") "[{").
  - discriminate.
  - vm_compute. reflexivity.
Defined.

(** * Further properties of the code *)

#[local] Set Warnings "-clear-no-such-hyp".

(** ** [sanitizeFileName] *)

Lemma replaceIllegalByte_id c :
  c ∉ Spec.illegalBytes → Spec.replaceIllegalByte c = c.
Proof. intros Hc. unfold Spec.replaceIllegalByte. by rewrite bool_decide_false. Qed.

Lemma replaceIllegalByte_fixed c :
  Spec.replaceIllegalByte c = c → c ∉ Spec.illegalBytes.
Proof. intros <-. apply replaceIllegalByte_legal. Qed.

Lemma replaceIllegal_fixed s :
  Spec.replaceIllegal s = s ↔ ∀ c, c ∈ Spec.illegalBytes → c ∉ bytes s.
Proof.
  induction s as [|d t IH]; simpl.
  - split; [|done]. by intros _ c _ ?%elem_of_nil.
  - split.
    + intros [= Hd Ht] c Hc [->|Hin]%elem_of_cons.
      * by apply replaceIllegalByte_fixed in Hd.
      * by apply IH in Hin.
    + intros Hall. f_equal.
      * apply replaceIllegalByte_id. intros Hd. apply (Hall d Hd). by left.
      * apply IH. intros c Hc Hin. apply (Hall c Hc). by right.
Qed.

Lemma replaceIllegal_idem s :
  Spec.replaceIllegal (Spec.replaceIllegal s) = Spec.replaceIllegal s.
Proof.
  apply replaceIllegal_fixed. intros c Hc Hin.
  by apply replaceIllegal_legal in Hin.
Qed.

Lemma replaceIllegal_slice_to s n :
  Spec.replaceIllegal (slice_to s n) = slice_to (Spec.replaceIllegal s) n.
Proof.
  revert s; induction n as [|n IH]; intros [|c t]; simpl; try done.
  by rewrite IH.
Qed.

Lemma slice_to_slice_to s n : slice_to (slice_to s n) n = slice_to s n.
Proof. apply slice_to_all. rewrite slice_to_length. lia. Qed.

Lemma sanitize_at_most_50 name : String.length (sanitizeFileName name) ≤ 50.
Proof.
  rewrite sanitizeFileName_spec. destruct (50 <? _) eqn:Hlt.
  - rewrite slice_to_length. lia.
  - by apply Nat.ltb_ge in Hlt.
Qed.

Lemma sanitize_keeps_safe_name name :
  String.length name ≤ 50 → (∀ c, c ∈ Spec.illegalBytes → c ∉ bytes name) →
  sanitizeFileName name = name.
Proof.
  intros Hlen Hlegal. rewrite sanitizeFileName_spec, replaceIllegal_length.
  apply Nat.ltb_ge in Hlen as ->. by apply replaceIllegal_fixed.
Qed.

Lemma sanitize_legal name c :
  c ∈ Spec.illegalBytes → c ∉ bytes (sanitizeFileName name).
Proof.
  intros Hc Hin. rewrite sanitizeFileName_spec in Hin. destruct (50 <? _).
  - by apply bytes_slice_to, replaceIllegal_legal in Hin.
  - by apply replaceIllegal_legal in Hin.
Qed.

(** X1.  The sanitized name has the length of the title, capped at 50 bytes. *)
Theorem sanitizeFileName_length name :
  String.length (sanitizeFileName name) = String.length name `min` 50.
Proof.
  rewrite sanitizeFileName_spec, replaceIllegal_length.
  destruct (50 <? String.length name) eqn:Hlt.
  - apply Nat.ltb_lt in Hlt. rewrite slice_to_length, replaceIllegal_length. lia.
  - apply Nat.ltb_ge in Hlt. rewrite replaceIllegal_length. lia.
Qed.

(** X2.  The names the sanitizer leaves as they are: those of at most 50 bytes
    without any of the nine characters. *)
Theorem sanitizeFileName_fixed_points name :
  sanitizeFileName name = name ↔
  String.length name ≤ 50 ∧ ∀ c, c ∈ Spec.illegalBytes → c ∉ bytes name.
Proof.
  split.
  - intros Hfix. assert (String.length name ≤ 50) as Hlen.
    { rewrite <- Hfix. apply sanitize_at_most_50. }
    split; [done|]. apply replaceIllegal_fixed.
    rewrite sanitizeFileName_spec, replaceIllegal_length in Hfix.
    by apply Nat.ltb_ge in Hlen as Hlt; rewrite Hlt in Hfix.
  - intros [Hlen Hlegal]. by apply sanitize_keeps_safe_name.
Qed.

(** X3.  Sanitizing a sanitized name changes nothing. *)
Theorem sanitizeFileName_idempotent name :
  sanitizeFileName (sanitizeFileName name) = sanitizeFileName name.
Proof.
  apply sanitize_keeps_safe_name.
  - apply sanitize_at_most_50.
  - intros c Hc. by apply sanitize_legal.
Qed.

(** X4.  Only the first 50 bytes of a title count: two titles that agree on
    them get the same name, whatever follows. *)
Theorem sanitizeFileName_first_50_bytes name1 name2 :
  slice_to name1 50 = slice_to name2 50 →
  sanitizeFileName name1 = sanitizeFileName name2.
Proof.
  assert (∀ name, sanitizeFileName name = Spec.replaceIllegal (slice_to name 50)) as Hcut.
  { intros name. rewrite sanitizeFileName_spec, replaceIllegal_length, replaceIllegal_slice_to.
    destruct (50 <? String.length name) eqn:Hlt; [done|].
    apply Nat.ltb_ge in Hlt. rewrite slice_to_all; [done|].
    by rewrite replaceIllegal_length. }
  intros Heq. by rewrite !Hcut, Heq.
Qed.

(** ** [modeToBetter] *)

Lemma allBytes_app p a b : allBytes p (a +:+ b) = allBytes p a && allBytes p b.
Proof.
  induction a as [|c a IH]; [done|].
  rewrite str_app_cons. simpl. by rewrite IH, andb_assoc.
Qed.

Lemma allBytes_slice_to p s n : allBytes p s = true → allBytes p (slice_to s n) = true.
Proof.
  revert s; induction n as [|n IH]; intros [|c t]; simpl; try done.
  intros [Hc Ht]%andb_true_iff. by rewrite Hc, IH.
Qed.

Lemma allBytes_slice_from p s n :
  allBytes p s = true → allBytes p (slice_from s n) = true.
Proof.
  revert s; induction n as [|n IH]; intros [|c t]; simpl; try done.
  intros [Hc Ht]%andb_true_iff. by apply IH.
Qed.

Lemma lowerASCII_length s : String.length (strings.lowerASCII s) = String.length s.
Proof. induction s; simpl; auto. Qed.

Lemma lowerASCII_id s : strings.hasUpper s = false → strings.lowerASCII s = s.
Proof.
  induction s as [|c t IH]; [done|]. simpl.
  intros [Hc Ht]%orb_false_iff. unfold strings.lowerByte. by rewrite Hc, IH.
Qed.

(** On ASCII text [ToLower] is the bytewise lowering, whatever the Unicode
    path does. *)
Lemma ToLower_ascii f s :
  strings.isASCII s = true → strings.ToLower f s = strings.lowerASCII s.
Proof.
  intros Ha. unfold strings.ToLower. rewrite Ha.
  destruct (strings.hasUpper s) eqn:Hu; [done|]. simpl. by rewrite lowerASCII_id.
Qed.

Lemma lowerASCII_lower s :
  strings.isASCII s = true → allBytes isLowerASCIIByte (strings.lowerASCII s) = true.
Proof.
  induction s as [|c t IH]; [done|]. simpl.
  intros [Hc Ht]%andb_true_iff. rewrite IH by done.
  unfold isLowerASCIIByte. by rewrite lowerByte_ascii, Hc, lowerByte_not_upper.
Qed.

Lemma TrimSuffix_allBytes p s suffix :
  allBytes p s = true → allBytes p (strings.TrimSuffix s suffix) = true.
Proof.
  intros Hs. unfold strings.TrimSuffix.
  destruct (strings.HasSuffix s suffix); [by apply allBytes_slice_to|done].
Qed.

Lemma Replace_one_allBytes p s old new :
  old ≠ new → allBytes p s = true → allBytes p new = true →
  allBytes p (strings.Replace s old new 1) = true.
Proof.
  intros Hne Hs Hnew. rewrite Replace_one by done.
  destruct (strings.Index s old); [|done].
  by rewrite !allBytes_app, allBytes_slice_to, allBytes_slice_from, Hnew.
Qed.

Lemma TrimSuffix_length s suffix :
  String.length (strings.TrimSuffix s suffix) ≤ String.length s.
Proof.
  unfold strings.TrimSuffix. destruct (strings.HasSuffix s suffix); [|done].
  rewrite slice_to_length. lia.
Qed.

Lemma Replace_one_length s old new :
  old ≠ new → String.length new ≤ String.length old →
  String.length (strings.Replace s old new 1) ≤ String.length s.
Proof.
  intros Hne Hlen. rewrite Replace_one by done.
  destruct (strings.Index s old) as [j|] eqn:Hj; [|done].
  apply Index_Some in Hj. rewrite Hj at 3. rewrite !str_length_app. lia.
Qed.

Section ModeNormalizerMore.
Context `{env : Environment}.

(** X5.  For an ASCII mode string the key is lowercase ASCII text: it holds no
    byte above 127 and no letter ['A'..'Z'], so "Gmajor" can only give "g",
    never "G". *)
Theorem modeToBetter_lowercase mode :
  strings.isASCII mode = true →
  allBytes isLowerASCIIByte (modeToBetter mode) = true.
Proof.
  intros Ha. unfold modeToBetter. rewrite (ToLower_ascii _ _ Ha).
  pose proof (lowerASCII_lower _ Ha) as Hm.
  generalize dependent (strings.lowerASCII mode). intros m Hm.
  destruct (strings.HasSuffix m "major"); [by apply TrimSuffix_allBytes|].
  destruct (strings.HasSuffix m "minor").
  { by rewrite allBytes_app, TrimSuffix_allBytes. }
  repeat (destruct (strings.Contains m _); [by apply Replace_one_allBytes|]).
  done.
Qed.

(** X6.  Normalizing never makes an ASCII mode string longer. *)
Theorem modeToBetter_not_longer mode :
  strings.isASCII mode = true →
  String.length (modeToBetter mode) ≤ String.length mode.
Proof.
  intros Ha. unfold modeToBetter. rewrite (ToLower_ascii _ _ Ha).
  rewrite <- (lowerASCII_length mode).
  generalize (strings.lowerASCII mode). intros m.
  destruct (strings.HasSuffix m "major"); [apply TrimSuffix_length|].
  destruct (strings.HasSuffix m "minor") eqn:Hmin.
  { apply HasSuffix_iff in Hmin as [r ->].
    rewrite TrimSuffix_app, !str_length_app. simpl. lia. }
  repeat (destruct (strings.Contains m _);
          [apply Replace_one_length; [done|simpl; lia]|]).
  done.
Qed.

(** X7.  The key does not depend on the case of the letters of an ASCII mode
    string. *)
Theorem modeToBetter_case_insensitive mode1 mode2 :
  strings.isASCII mode1 = true →
  strings.isASCII mode2 = true →
  strings.lowerASCII mode1 = strings.lowerASCII mode2 →
  modeToBetter mode1 = modeToBetter mode2.
Proof.
  intros Ha1 Ha2 Heq. unfold modeToBetter.
  by rewrite (ToLower_ascii _ _ Ha1), (ToLower_ascii _ _ Ha2), Heq.
Qed.
End ModeNormalizerMore.

Lemma isASCII_app a b :
  strings.isASCII (a +:+ b) = strings.isASCII a && strings.isASCII b.
Proof.
  induction a as [|c a IH]; [done|].
  rewrite str_app_cons. simpl. by rewrite IH, andb_assoc.
Qed.

Lemma lowerASCII_app a b :
  strings.lowerASCII (a +:+ b) = strings.lowerASCII a +:+ strings.lowerASCII b.
Proof.
  induction a as [|c a IH]; [done|].
  rewrite str_app_cons. simpl. by rewrite IH.
Qed.

Lemma HasSuffix_app_same_length r a b :
  String.length a = String.length b →
  strings.HasSuffix (r +:+ a) b = String.eqb a b.
Proof.
  intros Hl. unfold strings.HasSuffix. rewrite str_length_app, <- Hl.
  replace (String.length r + String.length a - String.length a)
    with (String.length r) by lia.
  rewrite slice_from_app.
  assert ((String.length a <=? String.length r + String.length a) = true) as ->
    by (apply Nat.leb_le; lia).
  done.
Qed.

Section ModeNormalizerSuffixes.
Context `{env : Environment}.

(** X8.  A key followed by "major" or "minor" in any mix of cases: whatever the
    ASCII key is, "major" is dropped and "minor" becomes "m", after
    lowercasing. *)
Theorem modeToBetter_major_minor key suffix :
  strings.isASCII key = true →
  strings.isASCII suffix = true →
  (strings.lowerASCII suffix = "major" →
   modeToBetter (key +:+ suffix) = strings.lowerASCII key)
  ∧ (strings.lowerASCII suffix = "minor" →
     modeToBetter (key +:+ suffix) = strings.lowerASCII key +:+ "m").
Proof.
  intros Hk Hs.
  assert (strings.isASCII (key +:+ suffix) = true) as Ha
    by by rewrite isASCII_app, Hk, Hs.
  unfold modeToBetter. rewrite (ToLower_ascii _ _ Ha), lowerASCII_app.
  split; intros ->.
  - by rewrite HasSuffix_app_same_length, TrimSuffix_app.
  - rewrite (HasSuffix_app_same_length _ "minor" "major") by done.
    rewrite HasSuffix_app_same_length by done. simpl.
    by rewrite TrimSuffix_app.
Qed.
End ModeNormalizerSuffixes.

(** ** [outputToMultipleFiles] *)

Section MultiFileMore.
Context `{env : Environment}.

(** What the loop prints, and how its counter and its messages add up. *)
Lemma outputToMultipleFiles_loop_log dir tunes i n w :
  ∃ msgs,
    stdout (outputToMultipleFiles_loop dir i tunes (n, w)).2 = stdout w ++ msgs
    ∧ (outputToMultipleFiles_loop dir i tunes (n, w)).1 + createErrors msgs
      = n + List.length tunes
    ∧ Forall (λ m, match m with
                   | ErrorCreatingFileAt p _ => ∃ t, t ∈ tunes ∧ p = pathOf dir t
                   | Processed k =>
                       k mod 100 = 0 ∧ i < k ∧ k ≤ i + List.length tunes
                   | _ => False
                   end) msgs.
Proof.
  revert i n w; induction tunes as [|t ts IH]; intros i n w.
  { exists []. simpl. rewrite app_nil_r. repeat split; first [done | lia | constructor]. }
  cbn [outputToMultipleFiles_loop]. rewrite outputToMultipleFiles_body_block.
  assert (∀ (st : nat * World) m1,
            stdout st.2 = stdout w ++ m1 →
            st.1 + createErrors m1 = S n →
            Forall (λ m, match m with
                         | ErrorCreatingFileAt p _ => p = pathOf dir t
                         | Processed k => k mod 100 = 0 ∧ k = i + 1
                         | _ => False
                         end) m1 →
            ∃ msgs,
              stdout (outputToMultipleFiles_loop dir (S i) ts st).2 = stdout w ++ msgs
              ∧ (outputToMultipleFiles_loop dir (S i) ts st).1 + createErrors msgs
                = n + List.length (t :: ts)
              ∧ Forall (λ m, match m with
                             | ErrorCreatingFileAt p _ =>
                                 ∃ t', t' ∈ t :: ts ∧ p = pathOf dir t'
                             | Processed k =>
                                 k mod 100 = 0 ∧ i < k
                                 ∧ k ≤ i + List.length (t :: ts)
                             | _ => False
                             end) msgs) as Hstep.
  { intros [n1 w1] m1 Ho1 Hn1 Hm1. simpl in Ho1, Hn1.
    destruct (IH (S i) n1 w1) as (msgs & Ho & Hn & Hm).
    exists (m1 ++ msgs). repeat split.
    - by rewrite Ho, Ho1, <- app_assoc.
    - assert (createErrors (m1 ++ msgs) = createErrors m1 + createErrors msgs) as ->.
      { clear. induction m1 as [|m m1 IHm]; simpl; [done|]. rewrite IHm. lia. }
      simpl. lia.
    - apply Forall_app. split.
      + eapply Forall_impl; [exact Hm1|]. intros [] Hx; try done.
        * exists t. split; [by left|done].
        * destruct Hx as [Hmod ->]. split; [done|]. simpl. lia.
      + eapply Forall_impl; [exact Hm|]. intros [] Hx; try done.
        * destruct Hx as (t' & ? & ->). exists t'. split; [by right|done].
        * destruct Hx as (Hmod & ? & ?). split; [done|]. simpl. lia. }
  destruct (os_Create_error i (pathOf dir t)) as [err|].
  - apply (Hstep (_, _) [ErrorCreatingFileAt (pathOf dir t) err]); simpl;
      [done|lia|]. by repeat constructor.
  - cbv zeta. destruct ((i + 1) mod 100 =? 0) eqn:Hmod.
    + apply (Hstep (_, _) [Processed (i + 1)]); simpl; [done|lia|].
      apply Nat.eqb_eq in Hmod. by repeat constructor.
    + apply (Hstep (_, _) []); simpl; [by rewrite app_nil_r|lia|constructor].
Qed.

(** X9.  Every tune is accounted for: the count reported at the end and the
    number of logged creation failures add up to the number of tunes, and
    every logged failure names the path of a tune. *)
Theorem outputToMultipleFiles_accounts_for_every_tune tunes dir w :
  ∃ msgs processed,
    stdout (outputToMultipleFiles tunes dir w)
    = stdout w ++ msgs ++ [WroteToFiles processed dir]
    ∧ processed + createErrors msgs = List.length tunes
    ∧ ∀ p err, ErrorCreatingFileAt p err ∈ msgs →
        ∃ t, t ∈ tunes ∧ p = pathOf dir t.
Proof.
  destruct (outputToMultipleFiles_loop_log dir tunes 0 0 w) as (msgs & Ho & Hn & Hm).
  unfold outputToMultipleFiles.
  destruct (outputToMultipleFiles_loop dir 0 tunes (0, w)) as [processed w1].
  simpl in *. exists msgs, processed. repeat split.
  - by rewrite Ho, <- app_assoc.
  - done.
  - intros p err Hin. rewrite Forall_forall in Hm. by apply (Hm _ Hin).
Qed.

(** X10.  Progress is reported only at full hundreds, and never beyond the number
    of tunes: a run on fewer than 100 tunes prints no progress message. *)
Theorem outputToMultipleFiles_progress_at_hundreds tunes dir w :
  ∃ msgs processed,
    stdout (outputToMultipleFiles tunes dir w)
    = stdout w ++ msgs ++ [WroteToFiles processed dir]
    ∧ (∀ k, Processed k ∈ msgs → k mod 100 = 0 ∧ 0 < k ∧ k ≤ List.length tunes)
    ∧ (List.length tunes < 100 → ∀ k, Processed k ∉ msgs).
Proof.
  destruct (outputToMultipleFiles_loop_log dir tunes 0 0 w) as (msgs & Ho & Hn & Hm).
  unfold outputToMultipleFiles.
  destruct (outputToMultipleFiles_loop dir 0 tunes (0, w)) as [processed w1].
  simpl in *. exists msgs, processed.
  assert (∀ k, Processed k ∈ msgs → k mod 100 = 0 ∧ 0 < k ∧ k ≤ List.length tunes)
    as Hk.
  { intros k Hin. rewrite Forall_forall in Hm. apply (Hm _ Hin). }
  repeat split; try by apply Hk.
  - by rewrite Ho, <- app_assoc.
  - intros Hlt k Hin. destruct (Hk k Hin) as (Hmod & Hpos & Hle).
    apply Nat.Div0.mod_divides in Hmod as [q ->]. lia.
Qed.
End MultiFileMore.

Section MultiFileFiles.
Context `{env : Environment}.

(** What multi-file mode leaves in the files, read off the loop. *)
Lemma outputToMultipleFiles_files tunes dir w :
  let w' := outputToMultipleFiles tunes dir w in
  dirs w' = dirs w
  ∧ (∀ p, p ∉ createdPaths dir 0 tunes → files w' !! p = files w !! p)
  ∧ (∀ p, is_Some (files w !! p) → is_Some (files w' !! p))
  ∧ (∀ k t, tunes !! k = Some t →
       os_Create_error k (pathOf dir t) = None →
       (∀ k' t', k < k' → tunes !! k' = Some t' →
          os_Create_error k' (pathOf dir t') = None →
          pathOf dir t' ≠ pathOf dir t) →
       files w' !! pathOf dir t = Some (Spec.block modeToBetter t)).
Proof.
  intros w'. unfold w', outputToMultipleFiles.
  destruct (outputToMultipleFiles_loop_spec dir tunes 0 0 w)
    as (w1 & msgs & -> & Hd & Ho & Hlog & Hsame & Hkeep & Hnew & Hcont).
  cbv beta iota zeta. repeat split; try done.
Qed.

(** Among the tunes written to a created path there is a last one. *)
Lemma createdPaths_last dir i tunes p :
  p ∈ createdPaths dir i tunes →
  ∃ k t, tunes !! k = Some t ∧ p = pathOf dir t
         ∧ os_Create_error (i + k) p = None
         ∧ ∀ k' t', k < k' → tunes !! k' = Some t' →
             os_Create_error (i + k') (pathOf dir t') = None →
             pathOf dir t' ≠ p.
Proof.
  revert i; induction tunes as [|t ts IH]; intros i; [by intros ?%elem_of_nil|].
  intros Hin.
  destruct (decide (p ∈ createdPaths dir (S i) ts)) as [Hrest|Hrest].
  - destruct (IH (S i) Hrest) as (k & t' & Hk & Hp & Hok & Hlast).
    exists (S k), t'. rewrite Nat.add_succ_r. repeat split; try done.
    intros [|k'] t'' Hlt Hk' Hok'; [lia|].
    apply (Hlast k' t''); [lia|done|]. by rewrite Nat.add_succ_r in Hok'.
  - apply createdPaths_elem in Hin as ([|k] & t' & Hk & Hp & Hok).
    + simpl in Hk. injection Hk as <-. exists 0, t. repeat split; try done.
      intros [|k'] t'' Hlt Hk' Hok' Heq; [lia|]. apply Hrest.
      apply createdPaths_elem. exists k', t''. simpl in Hk'.
      rewrite Nat.add_succ_r in Hok'. by rewrite <- Heq.
    + destruct Hrest. apply createdPaths_elem. exists k, t'.
      by rewrite Nat.add_succ_r in Hok.
Qed.

(** X11.  Multi-file mode only adds: it keeps the directories as they are and
    every file that was there is still there; a file it did not create
    keeps its content. *)
Theorem outputToMultipleFiles_only_adds_files tunes dir w :
  let w' := outputToMultipleFiles tunes dir w in
  dirs w' = dirs w
  ∧ dom (files w) ⊆ dom (files w')
  ∧ ∀ p, (∀ t, t ∈ tunes → p ≠ pathOf dir t) → files w' !! p = files w !! p.
Proof.
  intros w'. destruct (outputToMultipleFiles_files tunes dir w)
    as (Hd & Hsame & Hkeep & _). fold w' in Hd, Hsame, Hkeep.
  split; [done|]. split.
  - intros p Hp%elem_of_dom. by apply elem_of_dom, Hkeep.
  - intros p Hp. apply Hsame.
    intros (k & t & Hk & -> & _)%createdPaths_elem.
    apply (Hp t); [|done]. apply list_elem_of_lookup. by exists k.
Qed.

(** X12.  Running multi-file mode again on its own result changes no file: the
    files are overwritten with what they hold. *)
Theorem outputToMultipleFiles_rerun_keeps_files tunes dir w :
  files (outputToMultipleFiles tunes dir (outputToMultipleFiles tunes dir w))
  = files (outputToMultipleFiles tunes dir w).
Proof.
  set (w1 := outputToMultipleFiles tunes dir w).
  destruct (outputToMultipleFiles_files tunes dir w) as (_ & _ & _ & Hcont1).
  destruct (outputToMultipleFiles_files tunes dir w1) as (_ & Hsame2 & _ & Hcont2).
  fold w1 in Hcont1. apply map_eq. intros p.
  destruct (decide (p ∈ createdPaths dir 0 tunes)) as [Hin|Hout]; [|by apply Hsame2].
  destruct (createdPaths_last _ _ _ _ Hin) as (k & t & Hk & -> & Hok & Hlast).
  simpl in Hok, Hlast. by rewrite (Hcont1 k t), (Hcont2 k t).
Qed.

(** X13.  The two modes agree.  When every file can be created and no two tunes
    share a path, the combined file of single-file mode is the files of
    multi-file mode one after the other in input order, each followed by a
    blank line. *)
Theorem single_file_is_the_files_of_multi_file tunes dir fileName w1 w2 :
  os_Create_error 0 (filepath_Join dir fileName) = None →
  (∀ i t, tunes !! i = Some t → os_Create_error i (pathOf dir t) = None) →
  NoDup (pathOf dir <$> tunes) →
  contentAt (filepath_Join dir fileName)
    (outputToSingleFile tunes dir fileName w1).2
  = foldr (λ t rest,
             contentAt (pathOf dir t) (outputToMultipleFiles tunes dir w2)
             +:+ nl +:+ rest) "" tunes.
Proof.
  intros Hsingle Hmulti Hnodup.
  unfold outputToSingleFile. rewrite Hsingle.
  rewrite outputToSingleFile_loop, os_Create_withFile, Fprint_withFile.
  unfold contentAt at 1. cbn [snd files Print withFile].
  rewrite lookup_insert_eq. cbn [default]. rewrite str_app_nil_l.
  destruct (outputToMultipleFiles_files tunes dir w2) as (_ & _ & _ & Hcont).
  assert (∀ t, t ∈ tunes →
            contentAt (pathOf dir t) (outputToMultipleFiles tunes dir w2)
            = Spec.block modeToBetter t) as Hblock.
  { intros t (k & Hk)%list_elem_of_lookup. unfold contentAt.
    rewrite (Hcont k t); [done|done|by apply (Hmulti k t)|].
    intros k' t' Hlt Hk' _ Heq.
    assert (k = k'); [|lia].
    apply (NoDup_lookup _ _ _ (pathOf dir t) Hnodup);
      rewrite list_lookup_fmap; [by rewrite Hk|rewrite Hk'; simpl; by rewrite Heq]. }
  clear Hcont Hmulti Hnodup. revert Hblock.
  generalize (outputToMultipleFiles tunes dir w2). intros wm.
  generalize tunes. intros l Hblock. unfold id.
  induction l as [|t ts IH]; [done|]. simpl.
  rewrite IH by (intros t' ?; apply Hblock; by right).
  rewrite Hblock by by left. done.
Qed.
End MultiFileFiles.

Section MultiFileSummary.
Context `{env : Environment}.

Lemma outputToMultipleFiles_keeps tunes dir w :
  dirs (outputToMultipleFiles tunes dir w) = dirs w
  ∧ dom (files w) ⊆ dom (files (outputToMultipleFiles tunes dir w)).
Proof.
  destruct (outputToMultipleFiles_files tunes dir w) as (Hd & _ & Hkeep & _).
  split; [done|]. intros p Hp%elem_of_dom. by apply elem_of_dom, Hkeep.
Qed.

Lemma outputToMultipleFiles_stdout tunes dir w :
  ∃ msgs processed,
    stdout (outputToMultipleFiles tunes dir w)
    = stdout w ++ msgs ++ [WroteToFiles processed dir]
    ∧ processed ≤ List.length tunes.
Proof.
  destruct (outputToMultipleFiles_loop_log dir tunes 0 0 w) as (msgs & Ho & Hn & _).
  unfold outputToMultipleFiles.
  destruct (outputToMultipleFiles_loop dir 0 tunes (0, w)) as [processed w1].
  simpl in *. exists msgs, processed. split; [|lia]. by rewrite Ho, <- app_assoc.
Qed.
End MultiFileSummary.

(** ** [outputToSingleFile] *)

Section SingleFileMore.
Context `{env : Environment}.

Lemma outputToSingleFile_result tunes dir fileName w :
  outputToSingleFile tunes dir fileName w =
    match os_Create_error 0 (filepath_Join dir fileName) with
    | Some err => (Exit 1, Print (ErrorCreatingFile err) w)
    | None =>
        (Returned,
         Print (WroteToFile (List.length tunes) (filepath_Join dir fileName))
           (withFile (filepath_Join dir fileName)
              (Spec.combined modeToBetter tunes) w))
    end.
Proof.
  unfold outputToSingleFile. destruct (os_Create_error 0 _); [done|].
  by rewrite outputToSingleFile_loop, os_Create_withFile, Fprint_withFile.
Qed.

(** X14.  Single-file mode touches one file only.  It keeps the directories and
    every file but the output file.  Either it exits with status 1 and has
    changed no file at all, or it returns and the output file exists; what
    that file then holds does not depend on what was there before, and for
    an empty list of tunes it is empty. *)
Theorem outputToSingleFile_touches_one_file tunes dir fileName w :
  let path := filepath_Join dir fileName in
  let r := outputToSingleFile tunes dir fileName w in
  dirs r.2 = dirs w
  ∧ (∀ p, p ≠ path → files r.2 !! p = files w !! p)
  ∧ (r.1 = Exit 1 ∧ files r.2 = files w
     ∨ r.1 = Returned ∧ is_Some (files r.2 !! path))
  ∧ (r.1 = Returned → ∀ w2,
       files (outputToSingleFile tunes dir fileName w2).2 !! path
       = files r.2 !! path)
  ∧ (r.1 = Returned → tunes = [] → files r.2 !! path = Some "").
Proof.
  intros path r. unfold r.
  assert (∀ w0, outputToSingleFile tunes dir fileName w0 =
            match os_Create_error 0 path with
            | Some err => (Exit 1, Print (ErrorCreatingFile err) w0)
            | None =>
                (Returned,
                 Print (WroteToFile (List.length tunes) path)
                   (withFile path (Spec.combined modeToBetter tunes) w0))
            end) as Hres by (intros; apply outputToSingleFile_result).
  rewrite !Hres. destruct (os_Create_error 0 path) as [err|]; simpl.
  - repeat split; try done. by left.
  - repeat split; try done.
    + intros p Hp. by rewrite lookup_insert_ne.
    + right. split; [done|]. rewrite lookup_insert_eq. by eexists.
    + intros _ w2. rewrite Hres. simpl. by rewrite !lookup_insert_eq.
    + intros _ ->. by rewrite lookup_insert_eq.
Qed.
End SingleFileMore.

(** ** [main] *)

Section Main.
Context `{env : Environment}.

Lemma os_exists_mono dir w w' :
  dirs w ⊆ dirs w' → dom (files w) ⊆ dom (files w') →
  os_exists dir w = true → os_exists dir w' = true.
Proof.
  unfold os_exists. rewrite !bool_decide_eq_true. set_solver.
Qed.

(** The ways [main] can go: one of the four fatal errors before any file
    is written, or the writer run in a world that has the files of the
    start and the output directory. *)
Lemma main_cases flags w :
  (∃ m, main flags w = (Exit 1, Print m w))
  ∨ (∃ m1 m2, main flags w = (Exit 1, Print m2 (Print m1 w)))
  ∨ ∃ data tunes w0,
      inputFile flags ≠ ""
      ∧ files w !! inputFile flags = Some data
      ∧ json.Unmarshal json_scan json_folded data = (tunes, None)
      ∧ files w0 = files w
      ∧ dirs w ⊆ dirs w0 ∧ dirs w0 ⊆ dirs w ∪ {[outputDir flags]}
      ∧ os_exists (outputDir flags) w0 = true
      ∧ FoundTunes (List.length tunes) ∈ stdout w0
      ∧ main flags w =
          if singleFile flags
          then outputToSingleFile tunes (outputDir flags) (singleFilePath flags) w0
          else (Returned, outputToMultipleFiles tunes (outputDir flags) w0).
Proof.
  unfold main. case_bool_decide as Hin; [left; by eexists|].
  destruct (files w !! inputFile flags) as [data|] eqn:Hdata; [|left; by eexists].
  destruct (json.Unmarshal json_scan json_folded data) as [tunes [err|]] eqn:Hdec;
    [left; by eexists|].
  cbv zeta.
  destruct (os_exists (outputDir flags) (Print (FoundTunes (List.length tunes)) w))
    eqn:Hex.
  - right; right. exists data, tunes, (Print (FoundTunes (List.length tunes)) w).
    repeat split; try done; simpl; set_solver.
  - destruct (os_MkdirAll_error (outputDir flags)) as [err|].
    + right; left. by eexists _, _.
    + right; right.
      exists data, tunes,
        (Print (CreatedDirectory (outputDir flags))
           (os_MkdirAll (outputDir flags) (Print (FoundTunes (List.length tunes)) w))).
      repeat split; try done; simpl; try set_solver.
      unfold os_exists. apply bool_decide_eq_true. simpl. set_solver.
Qed.



Lemma main_never_removes flags w :
  dom (files w) ⊆ dom (files (main flags w).2)
  ∧ dirs w ⊆ dirs (main flags w).2.
Proof.
  destruct (main_cases flags w)
    as [[m ->]|[(m1 & m2 & ->)|(data & tunes & w0 & _ & _ & _ & Hf & Hd1 & _ & _ & _ & ->)]].
  - simpl. set_solver.
  - simpl. set_solver.
  - destruct (singleFile flags).
    + rewrite outputToSingleFile_result.
      destruct (os_Create_error 0 _); simpl; rewrite ?dom_insert_L, Hf; set_solver.
    + destruct (outputToMultipleFiles_keeps tunes (outputDir flags) w0)
        as (Hd & Hdom).
      simpl. rewrite Hd, <- Hf. set_solver.
Qed.

(** X16.  The program never removes anything: every file and every directory
    of the start is still there at the end, however the run ends. *)
Theorem program_never_removes cl w :
  dom (files w) ⊆ dom (files (program cl w).2)
  ∧ dirs w ⊆ dirs (program cl w).2.
Proof.
  destruct cl as [flags| |]; simpl; [apply main_never_removes|done..].
Qed.

(** X18.  In multi-file mode no failure to create a tune's file aborts the run:
    once the input is decoded and the output directory is there, [main]
    returns, and the count it reports last is at most the number of tunes. *)
Theorem main_multi_file_never_aborts flags w data tunes :
  inputFile flags ≠ "" →
  files w !! inputFile flags = Some data →
  json.Unmarshal json_scan json_folded data = (tunes, None) →
  os_exists (outputDir flags) w = true ∨ os_MkdirAll_error (outputDir flags) = None →
  singleFile flags = false →
  (main flags w).1 = Returned
  ∧ ∃ processed,
      last (stdout (main flags w).2) = Some (WroteToFiles processed (outputDir flags))
      ∧ processed ≤ List.length tunes.
Proof.
  intros Hin Hdata Hdec Hdir Hmulti.
  unfold main. rewrite (bool_decide_false _ Hin), Hdata, Hdec, Hmulti. cbv zeta.
  assert (∀ w0, (Returned, outputToMultipleFiles tunes (outputDir flags) w0).1 = Returned
            ∧ ∃ processed,
                last (stdout (Returned,
                        outputToMultipleFiles tunes (outputDir flags) w0).2)
                = Some (WroteToFiles processed (outputDir flags))
                ∧ processed ≤ List.length tunes) as Hrun.
  { intros w0. split; [done|]. simpl.
    destruct (outputToMultipleFiles_stdout tunes (outputDir flags) w0)
      as (msgs & k & -> & Hk).
    exists k. split; [|done]. by rewrite !app_assoc, last_snoc. }
  destruct (os_exists (outputDir flags) (Print (FoundTunes (List.length tunes)) w))
    eqn:Hex; [apply Hrun|].
  destruct Hdir as [Hdir| ->]; [|apply Hrun].
  unfold os_exists in Hex, Hdir. simpl in *. congruence.
Qed.
End Main.

(** ** Both writers *)

Section Writers.
Context `{env : Environment}.

(** X19.  Every file multi-file mode has created holds the block of exactly one
    tune of that path, the last one written there: the tune at the highest
    index among those of that path whose file could be created.  No file is
    left empty, partly written or holding two tunes. *)
Theorem outputToMultipleFiles_each_file_is_one_block tunes dir w p :
  p ∈ createdPaths dir 0 tunes →
  ∃ k t,
    tunes !! k = Some t ∧ p = pathOf dir t
    ∧ os_Create_error k p = None
    ∧ (∀ k' t', k < k' → tunes !! k' = Some t' →
         os_Create_error k' (pathOf dir t') = None → pathOf dir t' ≠ p)
    ∧ files (outputToMultipleFiles tunes dir w) !! p
      = Some (Spec.unlines (Spec.render modeToBetter t)).
Proof.
  intros (k & t & Hk & -> & Hok & Hlast)%createdPaths_last.
  destruct (outputToMultipleFiles_files tunes dir w) as (_ & _ & _ & Hcont).
  exists k, t. repeat split; try done.
  by apply (Hcont k t).
Qed.

Lemma outputToMultipleFiles_loop_ext dir i tunes1 tunes2 st :
  Forall2 (λ t1 t2, ∀ j st', outputToMultipleFiles_body dir j t1 st'
                             = outputToMultipleFiles_body dir j t2 st')
    tunes1 tunes2 →
  outputToMultipleFiles_loop dir i tunes1 st
  = outputToMultipleFiles_loop dir i tunes2 st.
Proof.
  intros H. revert i st. induction H as [|t1 t2 l1 l2 Ht _ IH]; intros i st; [done|].
  cbn [outputToMultipleFiles_loop]. by rewrite Ht, IH.
Qed.

(** X20.  The [tune_id] of a record plays no part in the output: neither writer
    changes anything when the identifiers are replaced. *)
Theorem writers_ignore_tune_id (ids : Tune → string) tunes dir fileName w :
  let tunes' := (λ t, setField FTuneID (ids t) t) <$> tunes in
  outputToSingleFile tunes' dir fileName w = outputToSingleFile tunes dir fileName w
  ∧ outputToMultipleFiles tunes' dir w = outputToMultipleFiles tunes dir w.
Proof.
  intros tunes'. split.
  - unfold outputToSingleFile. destruct (os_Create_error 0 _); [done|].
    unfold tunes'. rewrite length_fmap. do 2 f_equal.
    generalize (os_Create (filepath_Join dir fileName) w). intros w0.
    revert w0; induction tunes as [|[] ts IH]; intros w0; [done|]. simpl.
    by rewrite IH.
  - unfold outputToMultipleFiles.
    rewrite (outputToMultipleFiles_loop_ext dir 0 tunes' tunes); [done|].
    unfold tunes'. apply Forall2_fmap_l, Forall_Forall2_diag, Forall_forall.
    by intros [] _ j [n w0].
Qed.
End Writers.

(** ** Closed instances of the further properties *)

Lemma sanitizeFileName_first_50_bytes_witness :
  sanitizeFileName (repeatStr 50 "a" +:+ "x")
  = sanitizeFileName (repeatStr 50 "a" +:+ "/yz").
Proof.
  apply (sanitizeFileName_first_50_bytes
           (repeatStr 50 "a" +:+ "x") (repeatStr 50 "a" +:+ "/yz")).
  vm_compute. reflexivity.
Defined.

Lemma modeToBetter_lowercase_witness :
  allBytes isLowerASCIIByte (@modeToBetter exampleEnv "F#Minor") = true.
Proof. apply (@modeToBetter_lowercase exampleEnv "F#Minor"). reflexivity. Defined.

Lemma modeToBetter_not_longer_witness :
  String.length (@modeToBetter exampleEnv "Dmixolydian") ≤ String.length "Dmixolydian".
Proof. apply (@modeToBetter_not_longer exampleEnv "Dmixolydian"). reflexivity. Defined.

Lemma modeToBetter_case_insensitive_witness :
  @modeToBetter exampleEnv "EDORIAN" = @modeToBetter exampleEnv "Edorian".
Proof.
  apply (@modeToBetter_case_insensitive exampleEnv "EDORIAN" "Edorian");
    reflexivity.
Defined.

Lemma modeToBetter_major_minor_witness :
  (strings.lowerASCII "Major" = "major" →
   @modeToBetter exampleEnv ("Bb" +:+ "Major") = strings.lowerASCII "Bb")
  ∧ (strings.lowerASCII "Major" = "minor" →
     @modeToBetter exampleEnv ("Bb" +:+ "Major") = strings.lowerASCII "Bb" +:+ "m").
Proof.
  apply (@modeToBetter_major_minor exampleEnv "Bb" "Major"); reflexivity.
Defined.

Lemma single_file_is_the_files_of_multi_file_witness :
  contentAt "out/all.abc"
    (@outputToSingleFile exampleEnv [tuneA; tuneB] "out" "all.abc" (worldWith "x")).2
  = foldr (λ t rest,
             contentAt (@pathOf exampleEnv "out" t)
               (@outputToMultipleFiles exampleEnv [tuneA; tuneB] "out" (worldWith "y"))
             +:+ nl +:+ rest) "" [tuneA; tuneB].
Proof.
  apply (@single_file_is_the_files_of_multi_file exampleEnv
           [tuneA; tuneB] "out" "all.abc" (worldWith "x") (worldWith "y")).
  - reflexivity.
  - intros i t _. reflexivity.
  - vm_compute. repeat constructor; set_unfold; intuition discriminate.
Defined.

(** The sample input where no file can be created, in single-file mode:
    the directory is made, the creation of the output file fails, and the
    run exits with status 1 without any new file. *)
Example single_file_creation_fails :
  @main failingEnv (mkFlags "tunes.json" "out" true "all_tunes.abc")
    (worldWith sampleText)
  = (Exit 1,
     mkWorld {[ "tunes.json" := sampleText ]} {[ "out" ]}
       [FoundTunes 1; CreatedDirectory "out"; ErrorCreatingFile "permission denied"]).
Proof. vm_compute. reflexivity. Qed.


(** The same in multi-file mode: the failure for the one tune is logged,
    no tune is counted, and the run returns. *)
Example multi_file_creation_fails :
  @main failingEnv (mkFlags "tunes.json" "out" false "all_tunes.abc")
    (worldWith sampleText)
  = (Returned,
     mkWorld {[ "tunes.json" := sampleText ]} {[ "out" ]}
       [FoundTunes 1; CreatedDirectory "out";
        ErrorCreatingFileAt "out/1_A.abc" "permission denied";
        WroteToFiles 0 "out"]).
Proof. vm_compute. reflexivity. Qed.

Lemma main_multi_file_never_aborts_witness :
  let flags := mkFlags "tunes.json" "out" false "all_tunes.abc" in
  (@main failingEnv flags (worldWith sampleText)).1 = Returned
  ∧ ∃ processed,
      last (stdout (@main failingEnv flags (worldWith sampleText)).2)
      = Some (WroteToFiles processed "out")
      ∧ processed ≤ List.length [sampleTune].
Proof.
  apply (@main_multi_file_never_aborts failingEnv
           (mkFlags "tunes.json" "out" false "all_tunes.abc")
           (worldWith sampleText) sampleText [sampleTune]).
  - discriminate.
  - vm_compute. reflexivity.
  - reflexivity.
  - right. reflexivity.
  - reflexivity.
Defined.

(** Two tunes of one path: the file holds the second. *)
Example second_tune_of_a_path_wins :
  files (@outputToMultipleFiles exampleEnv [tuneA; tuneA2] "out" (worldWith "x"))
    !! "out/1_A.abc"
  = Some (Spec.unlines (Spec.render (@modeToBetter exampleEnv) tuneA2)).
Proof. vm_compute. reflexivity. Qed.

Lemma outputToMultipleFiles_each_file_is_one_block_witness :
  ∃ k t,
    [tuneA; tuneA2] !! k = Some t ∧ "out/1_A.abc" = @pathOf exampleEnv "out" t
    ∧ @os_Create_error exampleEnv k "out/1_A.abc" = None
    ∧ (∀ k' t', k < k' → [tuneA; tuneA2] !! k' = Some t' →
         @os_Create_error exampleEnv k' (@pathOf exampleEnv "out" t') = None →
         @pathOf exampleEnv "out" t' ≠ "out/1_A.abc")
    ∧ files (@outputToMultipleFiles exampleEnv [tuneA; tuneA2] "out" (worldWith "x"))
        !! "out/1_A.abc"
      = Some (Spec.unlines (Spec.render (@modeToBetter exampleEnv) t)).
Proof.
  apply (@outputToMultipleFiles_each_file_is_one_block exampleEnv
           [tuneA; tuneA2] "out" (worldWith "x") "out/1_A.abc").
  vm_compute. left.
Defined.

(** ** Decoding what the tags spell out *)

Section DecoderRoundTrip.
Variable folded : string → option TuneField.

Lemma storeTune_membersOf t saved :
  json.storeTune folded (json.Object (membersOf t)) saved = (t, saved).
Proof.
  destruct t as [tid sid nm ty mt md abc dt un]. unfold membersOf. simpl.
  do 2 case_bool_decide; simpl in *; subst; reflexivity.
Qed.

(** X21.  Reading back what the tags spell out.  The array of the objects that
    list every tune's fields under the tags of [Tune], with [date] and
    [username] left out when empty, decodes without error into the same
    tunes in the same order: the nine tags select nine different fields and
    an omitted optional field comes back empty. *)
Theorem decode_reads_back_tunes tunes :
  json.store folded (json.Array ((λ t, json.Object (membersOf t)) <$> tunes))
  = (tunes, None).
Proof.
  cbn [json.store]. generalize (@None json.Error). intros saved.
  induction tunes as [|t ts IH]; [done|].
  cbn [fmap list_fmap json.storeElems]. rewrite storeTune_membersOf.
  fold (fmap (M:=list) (λ t, json.Object (membersOf t)) ts). by rewrite IH.
Qed.
End DecoderRoundTrip.

(** ** [main], from the input to the files *)

Section MainEndToEnd.
Context `{env : Environment}.

Lemma main_writer flags w data tunes :
  inputFile flags ≠ "" →
  files w !! inputFile flags = Some data →
  json.Unmarshal json_scan json_folded data = (tunes, None) →
  os_exists (outputDir flags) w = true ∨ os_MkdirAll_error (outputDir flags) = None →
  ∃ w0, files w0 = files w
        ∧ main flags w =
            if singleFile flags
            then outputToSingleFile tunes (outputDir flags) (singleFilePath flags) w0
            else (Returned, outputToMultipleFiles tunes (outputDir flags) w0).
Proof.
  intros Hin Hdata Hdec Hdir.
  unfold main. rewrite (bool_decide_false _ Hin), Hdata, Hdec. cbv zeta.
  destruct (os_exists (outputDir flags) (Print (FoundTunes (List.length tunes)) w))
    eqn:Hex; [eexists; split; [|reflexivity]; done|].
  destruct Hdir as [Hdir| ->]; [|eexists; split; [|reflexivity]; done].
  unfold os_exists in Hex, Hdir. simpl in *. congruence.
Qed.

Lemma createdPaths_all dir i tunes :
  (∀ k t, tunes !! k = Some t → os_Create_error (i + k) (pathOf dir t) = None) →
  createdPaths dir i tunes = pathOf dir <$> tunes.
Proof.
  revert i; induction tunes as [|t ts IH]; intros i Hok; [done|]. simpl.
  rewrite (IH (S i)).
  - specialize (Hok 0 t eq_refl). rewrite Nat.add_0_r in Hok. by rewrite Hok.
  - intros k t' Hk. specialize (Hok (S k) t' Hk). by rewrite Nat.add_succ_r in Hok.
Qed.

Lemma outputToMultipleFiles_reports tunes dir w :
  last (stdout (outputToMultipleFiles tunes dir w))
  = Some (WroteToFiles (List.length (createdPaths dir 0 tunes)) dir).
Proof.
  unfold outputToMultipleFiles.
  destruct (outputToMultipleFiles_loop_spec dir tunes 0 0 w) as (w1 & msgs & -> & _).
  cbv beta iota zeta. apply last_snoc.
Qed.

(** X22.  A run of single-file mode that meets no failure: [main] returns, the
    output file holds the blocks of all decoded tunes in input order, each
    followed by a blank line, every other file is as it was, and the last
    message reports the number of tunes. *)
Theorem main_single_file_writes_all_tunes flags w data tunes :
  inputFile flags ≠ "" →
  files w !! inputFile flags = Some data →
  json.Unmarshal json_scan json_folded data = (tunes, None) →
  os_exists (outputDir flags) w = true ∨ os_MkdirAll_error (outputDir flags) = None →
  singleFile flags = true →
  os_Create_error 0 (filepath_Join (outputDir flags) (singleFilePath flags)) = None →
  let path := filepath_Join (outputDir flags) (singleFilePath flags) in
  (main flags w).1 = Returned
  ∧ files (main flags w).2 !! path
    = Some (foldr (λ t rest,
                     Spec.unlines (Spec.render modeToBetter t) +:+ nl +:+ rest)
              "" tunes)
  ∧ (∀ p, p ≠ path → files (main flags w).2 !! p = files w !! p)
  ∧ last (stdout (main flags w).2) = Some (WroteToFile (List.length tunes) path).
Proof.
  intros Hin Hdata Hdec Hdir Hsingle Hok path.
  destruct (main_writer flags w data tunes Hin Hdata Hdec Hdir) as (w0 & Hf & ->).
  subst path. rewrite Hsingle, outputToSingleFile_result, Hok. simpl.
  repeat split.
  - rewrite lookup_insert_eq. f_equal. clear. induction tunes as [|t ts IH]; [done|].
    simpl. by rewrite IH.
  - intros p Hp. by rewrite lookup_insert_ne, Hf.
  - apply last_snoc.
Qed.

(** X23.  A run of multi-file mode that meets no failure, on tunes with pairwise
    different paths: [main] returns, every tune has its own file holding
    its block, every file that is not a tune's is as it was, and the last
    message reports all the tunes. *)
Theorem main_multi_file_writes_all_tunes flags w data tunes :
  inputFile flags ≠ "" →
  files w !! inputFile flags = Some data →
  json.Unmarshal json_scan json_folded data = (tunes, None) →
  os_exists (outputDir flags) w = true ∨ os_MkdirAll_error (outputDir flags) = None →
  singleFile flags = false →
  (∀ i t, tunes !! i = Some t →
     os_Create_error i (pathOf (outputDir flags) t) = None) →
  NoDup (pathOf (outputDir flags) <$> tunes) →
  (main flags w).1 = Returned
  ∧ (∀ t, t ∈ tunes →
       files (main flags w).2 !! pathOf (outputDir flags) t
       = Some (Spec.unlines (Spec.render modeToBetter t)))
  ∧ (∀ p, (∀ t, t ∈ tunes → p ≠ pathOf (outputDir flags) t) →
       files (main flags w).2 !! p = files w !! p)
  ∧ last (stdout (main flags w).2)
    = Some (WroteToFiles (List.length tunes) (outputDir flags)).
Proof.
  intros Hin Hdata Hdec Hdir Hmulti Hok Hnodup.
  destruct (main_writer flags w data tunes Hin Hdata Hdec Hdir) as (w0 & Hf & ->).
  rewrite Hmulti. cbn [fst snd].
  destruct (outputToMultipleFiles_files tunes (outputDir flags) w0)
    as (_ & Hsame & _ & Hcont).
  split; [done|]. repeat split.
  - intros t (k & Hk)%list_elem_of_lookup.
    apply (Hcont k t); [done|by apply (Hok k t)|].
    intros k' t' Hlt Hk' _ Heq. assert (k = k'); [|lia].
    apply (NoDup_lookup _ _ _ (pathOf (outputDir flags) t) Hnodup);
      rewrite list_lookup_fmap; [by rewrite Hk|rewrite Hk'; simpl; by rewrite Heq].
  - intros p Hp. rewrite <- Hf. apply Hsame.
    intros (k & t & Hk & -> & _)%createdPaths_elem.
    apply (Hp t); [|done]. apply list_elem_of_lookup. by exists k.
  - rewrite outputToMultipleFiles_reports, createdPaths_all, length_fmap; [done|].
    intros k t Hk. by apply Hok.
Qed.
End MainEndToEnd.

(** The sample input, decoded. *)
Example sample_decodes :
  json.Unmarshal (@json_scan sampleEnv) (@json_folded sampleEnv) sampleText
  = ([sampleTune], None).
Proof. reflexivity. Qed.

Lemma main_single_file_writes_all_tunes_witness :
  let flags := mkFlags "tunes.json" "out" true "all_tunes.abc" in
  let w := worldWith sampleText in
  (@main sampleEnv flags w).1 = Returned
  ∧ files (@main sampleEnv flags w).2 !! "out/all_tunes.abc"
    = Some (foldr (λ t rest,
                     Spec.unlines (Spec.render (@modeToBetter sampleEnv) t)
                     +:+ nl +:+ rest) "" [sampleTune])
  ∧ (∀ p, p ≠ "out/all_tunes.abc" →
       files (@main sampleEnv flags w).2 !! p = files w !! p)
  ∧ last (stdout (@main sampleEnv flags w).2)
    = Some (WroteToFile 1 "out/all_tunes.abc").
Proof.
  apply (@main_single_file_writes_all_tunes sampleEnv
           (mkFlags "tunes.json" "out" true "all_tunes.abc")
           (worldWith sampleText) sampleText [sampleTune]).
  - discriminate.
  - vm_compute. reflexivity.
  - reflexivity.
  - right. reflexivity.
  - reflexivity.
  - reflexivity.
Defined.

Lemma main_multi_file_writes_all_tunes_witness :
  let flags := mkFlags "tunes.json" "out" false "all_tunes.abc" in
  let w := worldWith sampleText in
  (@main sampleEnv flags w).1 = Returned
  ∧ (∀ t, t ∈ [sampleTune] →
       files (@main sampleEnv flags w).2 !! @pathOf sampleEnv "out" t
       = Some (Spec.unlines (Spec.render (@modeToBetter sampleEnv) t)))
  ∧ (∀ p, (∀ t, t ∈ [sampleTune] → p ≠ @pathOf sampleEnv "out" t) →
       files (@main sampleEnv flags w).2 !! p = files w !! p)
  ∧ last (stdout (@main sampleEnv flags w).2) = Some (WroteToFiles 1 "out").
Proof.
  apply (@main_multi_file_writes_all_tunes sampleEnv
           (mkFlags "tunes.json" "out" false "all_tunes.abc")
           (worldWith sampleText) sampleText [sampleTune]).
  - discriminate.
  - vm_compute. reflexivity.
  - reflexivity.
  - right. reflexivity.
  - reflexivity.
  - intros i t _. reflexivity.
  - vm_compute. repeat constructor. set_unfold. intuition discriminate.
Defined.
